(** * Bojax / Boax: acquisitions, initializers, optimizers, bijectors and
    kernels

    A shallow embedding of the candidate-proposal core of the library:

    - [bojax/_src/optimization/acquisitions/alias.py]
      ([scale_improvement], [log_probability_of_improvement],
      [log_expected_improvement], [upper_confidence_bound]);
    - [boax/optimization/optimizers/initializers/alias.py]
      ([q_batch], [q_batch_nonnegative]);
    - [bojax/_src/prediction/bijectors/alias.py]
      ([identity], [shift], [scalar_affine], [softplus]);
    - [bojax/_src/prediction/kernels/alias.py] and [base.py];
    - the batch and sequential optimizers exercised by
      [tests/optimization/optimizers/optimizers_test.py].

    Numbers.  A JAX array element is an IEEE-754 number.  It is modelled by
    the type [float] below: a real number, or one of the three special
    values [+inf], [-inf] and [nan].  Operations follow the IEEE rules for
    the special values (division by zero, [0 * inf], [inf - inf],
    comparisons with [nan], ...) and are exact on finite values: rounding,
    overflow, underflow and the sign of zero are outside this model.
    Statements over [float] are therefore about which formula the code
    evaluates, its results on the special values, its branches and
    shapes, and inequalities that rounding to nearest preserves.

    Rounding.  Where a property of the code depends on rounding, the
    function is embedded a second time over IEEE binary32 numbers (the
    default element type of JAX arrays), with the operations of
    [SpecFloat] at a 24-bit significand: [scalar_affine32] and
    [standardize32].

    Arrays.  A vector is a list of numbers and a matrix a list of rows;
    functions that JAX applies element by element are written on one
    element and mapped.  The bijectors, whose source computes broadcast
    shapes, work on arrays of rank 0 and 1 with NumPy broadcasting.

    Library functions.  [jax.numpy], [jax.scipy] and [jax.nn] functions are
    given their mathematical meaning; [jax.random.choice] and the
    collaborators of the optimizers are parameters. *)

From Stdlib Require Import ZArith Reals Lra Lia List Bool Arith.
From Stdlib Require SpecFloat.
Import ListNotations.

Local Open Scope R_scope.

(* ================================================================== *)
(** * Numbers *)
(* ================================================================== *)

Inductive float : Type :=
| Fin (r : R)
| PInf
| NInf
| NaN.

Definition rltb (a b : R) : bool := if Rlt_dec a b then true else false.
Definition rleb (a b : R) : bool := if Rle_dec a b then true else false.
Definition reqb (a b : R) : bool := if Req_dec_T a b then true else false.

(** The infinity that carries the sign of [r]; [nan] when [r] is zero. *)
Definition inf_of_sign (r : R) : float :=
  if rltb 0 r then PInf else if rltb r 0 then NInf else NaN.

Definition is_finite (x : float) : bool :=
  match x with Fin _ => true | _ => false end.

Definition is_nan (x : float) : bool :=
  match x with NaN => true | _ => false end.

Definition fneg (x : float) : float :=
  match x with
  | Fin r => Fin (- r)
  | PInf => NInf
  | NInf => PInf
  | NaN => NaN
  end.

Definition fabs (x : float) : float :=
  match x with
  | Fin r => Fin (Rabs r)
  | PInf | NInf => PInf
  | NaN => NaN
  end.

Definition fadd (x y : float) : float :=
  match x, y with
  | NaN, _ | _, NaN => NaN
  | Fin a, Fin b => Fin (a + b)
  | PInf, NInf | NInf, PInf => NaN
  | PInf, _ | _, PInf => PInf
  | NInf, _ | _, NInf => NInf
  end.

Definition fsub (x y : float) : float := fadd x (fneg y).

Definition fmul (x y : float) : float :=
  match x, y with
  | NaN, _ | _, NaN => NaN
  | Fin a, Fin b => Fin (a * b)
  | Fin a, PInf | PInf, Fin a => inf_of_sign a
  | Fin a, NInf | NInf, Fin a => inf_of_sign (- a)
  | PInf, PInf | NInf, NInf => PInf
  | PInf, NInf | NInf, PInf => NInf
  end.

Definition fdiv (x y : float) : float :=
  match x, y with
  | NaN, _ | _, NaN => NaN
  | Fin a, Fin b => if reqb b 0 then inf_of_sign a else Fin (a / b)
  | Fin _, (PInf | NInf) => Fin 0
  | PInf, Fin b => if rltb b 0 then NInf else PInf
  | NInf, Fin b => if rltb b 0 then PInf else NInf
  | (PInf | NInf), (PInf | NInf) => NaN
  end.

(** Comparisons: every comparison with [nan] is false. *)
Definition flt (x y : float) : bool :=
  match x, y with
  | NaN, _ | _, NaN => false
  | Fin a, Fin b => rltb a b
  | NInf, (Fin _ | PInf) => true
  | Fin _, PInf => true
  | _, _ => false
  end.

Definition fle (x y : float) : bool :=
  match x, y with
  | NaN, _ | _, NaN => false
  | Fin a, Fin b => rleb a b
  | NInf, _ => true
  | _, PInf => true
  | _, _ => false
  end.

Definition fgt (x y : float) : bool := flt y x.
Definition fge (x y : float) : bool := fle y x.

(** [jnp.where c a b] on one element. *)
Definition where_ {A : Type} (c : bool) (a b : A) : A := if c then a else b.

(* ------------------------------------------------------------------ *)
(** ** The elementary functions of [jax.numpy] *)

Definition fsqrt (x : float) : float :=
  match x with
  | Fin r => if rltb r 0 then NaN else Fin (sqrt r)
  | PInf => PInf
  | NInf | NaN => NaN
  end.

Definition fexp (x : float) : float :=
  match x with
  | Fin r => Fin (exp r)
  | PInf => PInf
  | NInf => Fin 0
  | NaN => NaN
  end.

Definition flog (x : float) : float :=
  match x with
  | Fin r => if rltb 0 r then Fin (ln r) else if rltb r 0 then NaN else NInf
  | PInf => PInf
  | NInf | NaN => NaN
  end.

(** [jnp.expm1 x] is [exp x - 1] and [jnp.log1p x] is [log (1 + x)]. *)
Definition fexpm1 (x : float) : float := fsub (fexp x) (Fin 1).
Definition flog1p (x : float) : float := flog (fadd (Fin 1) x).

(* ------------------------------------------------------------------ *)
(** ** The error function and the standard normal distribution *)

(** The integrand of the error function. *)
Definition gauss (t : R) : R := exp (- (t * t)).

Definition gauss_continuity : continuity gauss.
Proof.
  unfold gauss.
  change (continuity (comp exp (- (id * id))%F)).
  apply continuity_comp.
  - apply continuity_opp, continuity_mult;
      apply derivable_continuous, derivable_id.
  - apply derivable_continuous, derivable_exp.
Qed.

Definition gauss_integrable (a b : R) : Riemann_integrable gauss a b :=
  match Rle_dec a b with
  | left Hab =>
      continuity_implies_RiemannInt Hab (fun x _ => gauss_continuity x)
  | right Hab =>
      RiemannInt_P1
        (continuity_implies_RiemannInt
           (Rlt_le _ _ (Rnot_le_lt _ _ Hab))
           (fun x _ => gauss_continuity x))
  end.

(** [erf x = 2 / sqrt pi * integral from 0 to x of exp (- t^2) dt]. *)
Definition erf (x : R) : R :=
  2 / sqrt PI * RiemannInt (gauss_integrable 0 x).

Definition erfc (x : R) : R := 1 - erf x.

(** [scipy.special.erfc]. *)
Definition ferfc (x : float) : float :=
  match x with
  | Fin r => Fin (erfc r)
  | PInf => Fin 0
  | NInf => Fin 2
  | NaN => NaN
  end.

(** Density and distribution function of the standard normal law. *)
Definition phi (z : R) : R := exp (- (z * z) / 2) / sqrt (2 * PI).
Definition Phi (z : R) : R := erfc (- z / sqrt 2) / 2.

(** [scipy.stats.norm.pdf], [cdf], [logpdf] and [logcdf]. *)
Definition norm_pdf (x : float) : float :=
  match x with
  | Fin r => Fin (phi r)
  | PInf | NInf => Fin 0
  | NaN => NaN
  end.

Definition norm_cdf (x : float) : float :=
  match x with
  | Fin r => Fin (Phi r)
  | PInf => Fin 1
  | NInf => Fin 0
  | NaN => NaN
  end.

Definition norm_logpdf (x : float) : float :=
  match x with
  | Fin r => Fin (- (r * r) / 2 - ln (sqrt (2 * PI)))
  | PInf | NInf => NInf
  | NaN => NaN
  end.

Definition norm_logcdf (x : float) : float :=
  match x with
  | Fin r => Fin (ln (Phi r))
  | PInf => Fin 0
  | NInf => NInf
  | NaN => NaN
  end.

(** A primitive of [1 - t^2], which bounds the integrand of the error
    function from below. *)
Definition cubic (t : R) : R := t - t ^ 3 / 3.

(** The ratio [Phi z / phi z] at [z = -1], written with [erfc] as the
    source does: [exp (1/2) * erfc (1 / sqrt 2) * sqrt (pi / 2)]. *)
Definition mills_minus_one : R := exp (/ 2) * erfc (/ sqrt 2) * sqrt (PI / 2).

(* ================================================================== *)
(** * Acquisition functions
    [bojax/_src/optimization/acquisitions/alias.py] *)
(* ================================================================== *)

(** Element-wise binary operation on two vectors of the same length. *)
Fixpoint map2 {A B C : Type} (f : A -> B -> C) (l : list A) (l' : list B)
  : list C :=
  match l, l' with
  | a :: t, b :: t' => f a b :: map2 f t t'
  | _, _ => []
  end.

(** [jnp.diag] of a square matrix stored by rows.  The source applies it
    through [jnp.vectorize] with the signature [(k,k)->(k)], which accepts
    square matrices only; a process returns one. *)
Definition diag (m : list (list float)) : list float :=
  map (fun i => nth i (nth i m []) NaN) (seq 0 (length m)).

(** [compose] of [bojax._src.util]: [compose f g x = f (g x)]. *)
Definition compose {A B C : Type} (f : B -> C) (g : A -> B) : A -> C :=
  fun x => f (g x).

(** [scale_improvement loc scale best = (loc - best) / scale], element by
    element, [best] being a scalar and [loc] and [scale] two vectors of
    the same length [q]. *)
Definition scale_improvement (loc scale : list float) (best : float)
  : list float :=
  map2 fdiv (map (fun l => fsub l best) loc) scale.

Section Acquisitions.

(** The candidates are opaque: the acquisitions only hand them to the
    process. *)
Variable Candidates : Type.

(** A process maps [q] candidates to a mean vector of length [q] and a
    covariance matrix of shape [(q, q)]. *)
Definition Process : Type := Candidates -> list float * list (list float).

Definition Acquisition : Type := Candidates -> list float.

(** [scale = jnp.vectorize(compose(jnp.sqrt, jnp.diag))(cov)]. *)
Definition scale_of (cov : list (list float)) : list float :=
  compose (map fsqrt) diag cov.

Definition log_probability_of_improvement (best : float) (process : Process)
  : Acquisition :=
  fun candidates =>
    let '(loc, cov) := process candidates in
    let scale := scale_of cov in
    let x := scale_improvement loc scale best in
    map norm_logcdf x.

(** The constants of [log_expected_improvement]. *)
Definition _log2 : float := Fin (ln 2).
Definition _neg_inv_sqrt_eps : float := Fin (- 1000000).
Definition _neg_inv_sqrt2 : float := Fin (- / sqrt 2).
Definition _log_sqrt_pi_div_2 : float := Fin (ln (PI / 2) / 2).

Definition log1mexp (x : float) : float :=
  where_ (flt (fneg _log2) x)
    (flog (fexpm1 (fneg x)))
    (flog1p (fexp (fneg x))).

Definition erfcx (x : float) : float :=
  fmul (fexp (fmul x x)) (ferfc x).

Definition log_ei_eps (x : float) : float :=
  log1mexp
    (fadd (flog (fmul (erfcx (fmul _neg_inv_sqrt2 x)) (fabs x)))
       _log_sqrt_pi_div_2).

Definition log_ei_upper (x : float) : float :=
  flog (fadd (norm_pdf x) (fmul x (norm_cdf x))).

Definition log_ei_lower (x : float) : float :=
  fmul (flog (fabs x)) (Fin (- 2)).

Definition log_ei (x : float) : float :=
  let bound := Fin (- 1) in
  let x_upper := where_ (flt x bound) bound x in
  let x_lower := where_ (fgt x bound) bound x in
  let x_eps := where_ (flt x _neg_inv_sqrt_eps) _neg_inv_sqrt_eps x_lower in
  where_ (fgt x bound)
    (log_ei_upper x_upper)
    (fadd (norm_logpdf x)
       (where_ (fgt x _neg_inv_sqrt_eps)
          (log_ei_eps x_eps)
          (log_ei_lower x_lower))).

Definition log_expected_improvement (best : float) (process : Process)
  : Acquisition :=
  fun candidates =>
    let '(loc, cov) := process candidates in
    let scale := scale_of cov in
    let x := scale_improvement loc scale best in
    map log_ei x.

Definition upper_confidence_bound (beta : float) (process : Process)
  : Acquisition :=
  fun candidates =>
    let '(loc, cov) := process candidates in
    let scale := scale_of cov in
    map2 fadd loc (map (fmul (fsqrt beta)) scale).

End Acquisitions.

(** The argument of the helper in the regime of the stabilised expansion,
    as the specification writes it: [g z = log (erfcx (- z / sqrt 2) * |z|)
    + log (sqrt (pi / 2))]. *)
Definition spec_g (z : float) : float :=
  fadd (flog (fmul (erfcx (fmul (Fin (- / sqrt 2)) z)) (fabs z)))
    (Fin (ln (sqrt (PI / 2)))).

Arguments log_probability_of_improvement {Candidates} best process _.
Arguments log_expected_improvement {Candidates} best process _.
Arguments upper_confidence_bound {Candidates} beta process _.

(* ================================================================== *)
(** * Candidate initializers
    [boax/optimization/optimizers/initializers/alias.py] *)
(* ================================================================== *)

(** The outcome of a call: a value, a raised exception, or no answer
    within the given number of loop iterations. *)
Inductive outcome (A : Type) : Type :=
| Done (a : A)
| Raised
| OutOfFuel.

Arguments Done {A} a.
Arguments Raised {A}.
Arguments OutOfFuel {A}.

(** The outcome of a call that does not loop: [None] is a raised
    exception. *)
Definition of_option {A : Type} (o : option A) : outcome A :=
  match o with
  | Some a => Done a
  | None => Raised
  end.

(** [lax.while_loop cond body init], run for at most [fuel] tests of the
    condition. *)
Fixpoint while_loop {S : Type} (fuel : nat) (cond : S -> bool)
  (body : S -> S) (s : S) : option S :=
  match fuel with
  | O => None
  | Datatypes.S fuel' =>
      if cond s then while_loop fuel' cond body (body s) else Some s
  end.

(** [jnp.sum] of a vector. *)
Definition fsum (l : list float) : float := fold_left fadd l (Fin 0).

(** [jnp.mean] of a vector; the mean of no element is [0 / 0]. *)
Definition fmean (l : list float) : float :=
  fdiv (fsum l) (Fin (INR (length l))).

(** [jnp.maximum]: [nan] if either argument is. *)
Definition fmax (x y : float) : float :=
  match x, y with
  | NaN, _ | _, NaN => NaN
  | _, _ => if flt x y then y else x
  end.

(** [jnp.max] of a vector; it raises on an empty one. *)
Definition jnp_max (l : list float) : option float :=
  match l with
  | [] => None
  | a :: t => Some (fold_left fmax t a)
  end.

(** [jax.nn.standardize y] along the only axis: subtract the mean and
    multiply by [rsqrt (variance + 1e-5)], the variance being computed as
    [mean (y^2) - (mean y)^2].  The difference cancels under rounding;
    [standardize32] below is the same function on binary32 numbers. *)
Definition standardize (y : list float) : list float :=
  let mean := fmean y in
  let variance := fsub (fmean (map (fun v => fmul v v) y)) (fmul mean mean) in
  let rsqrt := fdiv (Fin 1) (fsqrt (fadd variance (Fin (1 / 100000)))) in
  map (fun v => fmul (fsub v mean) rsqrt) y.

(** [jnp.sum] of a boolean vector: the number of [True]. *)
Definition count_true (m : list bool) : nat :=
  length (filter (fun b => b) m).

(** [a[mask]] for a boolean mask: the rows at which the mask is [True];
    it raises when the mask has another length than [a]. *)
Fixpoint select {A : Type} (a : list A) (mask : list bool) : list A :=
  match a, mask with
  | r :: a', b :: mask' =>
      if b then r :: select a' mask' else select a' mask'
  | _, _ => []
  end.

Definition mask_index {A : Type} (a : list A) (mask : list bool)
  : option (list A) :=
  if Nat.eqb (length a) (length mask) then Some (select a mask) else None.

Section Initializers.

(** PRNG keys and pool rows (candidate sets of shape [(q, d)]). *)
Variable Key : Type.
Variable Row : Type.

(** [jax.random.choice key a (n,) p]: [n] rows of [a] drawn with
    replacement, row [i] with probability proportional to [p[i]]; [None]
    when the call raises.  The result is a function of its arguments
    only. *)
Variable random_choice :
  Key -> list Row -> nat -> list float -> option (list Row).

Definition Initializer : Type :=
  Key -> list Row -> list float -> nat -> outcome (list Row).

(** The sampling weights of [q_batch]. *)
Definition q_batch_weights (eta : float) (y : list float) : list float :=
  map (fun s => fexp (fmul eta s)) (standardize y).

Definition q_batch (eta : float) : Initializer :=
  fun key x y num_restarts =>
    of_option (random_choice key x num_restarts (q_batch_weights eta y)).

(** The state of the loop of [q_batch_nonnegative]: the current [alpha]
    and the mask [y >= alpha * max_val]. *)
Definition shrink_state : Type := (float * list bool)%type.

Definition alpha_mask (y : list float) (max_val alpha : float) : list bool :=
  map (fun s => fge s (fmul alpha max_val)) y.

Definition shrink_cond (num_restarts : nat) (x : shrink_state) : bool :=
  Nat.ltb (count_true (snd x)) num_restarts.

Definition shrink_body (y : list float) (max_val : float) (x : shrink_state)
  : shrink_state :=
  let alpha := fmul (fst x) (Fin (1 / 10)) in
  let alpha_pos := alpha_mask y max_val alpha in
  (alpha, alpha_pos).

Definition shrink_loop (fuel : nat) (alpha : float) (y : list float)
  (max_val : float) (num_restarts : nat) : option shrink_state :=
  while_loop fuel (shrink_cond num_restarts) (shrink_body y max_val)
    (alpha, alpha_mask y max_val alpha).

(** The sampling weights of [q_batch_nonnegative] on the passing scores. *)
Definition nonnegative_weights (eta max_val : float) (ys : list float)
  : list float :=
  map (fun s => fexp (fmul eta (fsub (fdiv s max_val) (Fin 1)))) ys.

Definition q_batch_nonnegative (fuel : nat) (eta alpha : float)
  : Initializer :=
  fun key x y num_restarts =>
    match jnp_max y with
    | None => Raised
    | Some max_val =>
        match shrink_loop fuel alpha y max_val num_restarts with
        | None => OutOfFuel
        | Some (_, alpha_pos) =>
            match mask_index x alpha_pos with
            | None => Raised
            | Some rows =>
                of_option
                  (random_choice key rows num_restarts
                     (nonnegative_weights eta max_val (select y alpha_pos)))
            end
        end
    end.

End Initializers.

Arguments q_batch {Key Row} random_choice eta _ _ _ _.
Arguments q_batch_nonnegative {Key Row} random_choice fuel eta alpha _ _ _ _.

(* ================================================================== *)
(** * Bijectors
    [bojax/_src/prediction/bijectors/alias.py] *)
(* ================================================================== *)

(** Arrays of rank 0 and 1, with their shapes [()] and [(n,)]. *)
Inductive array : Type :=
| Scalar (x : float)
| Vector (xs : list float).

Inductive shape : Type :=
| Shape0
| Shape1 (n : nat).

Definition shape_of (a : array) : shape :=
  match a with
  | Scalar _ => Shape0
  | Vector xs => Shape1 (length xs)
  end.

(** [lax.broadcast_shapes]: [None] when the shapes are incompatible (the
    call raises). *)
Definition broadcast_shapes (s t : shape) : option shape :=
  match s, t with
  | Shape0, u | u, Shape0 => Some u
  | Shape1 n, Shape1 m =>
      if Nat.eqb n m then Some (Shape1 n)
      else if Nat.eqb n 1 then Some (Shape1 m)
      else if Nat.eqb m 1 then Some (Shape1 n)
      else None
  end.

(** [jnp.broadcast_to]. *)
Definition broadcast_to (a : array) (s : shape) : option array :=
  match a, s with
  | Scalar x, Shape0 => Some (Scalar x)
  | Scalar x, Shape1 n => Some (Vector (repeat x n))
  | Vector _, Shape0 => None
  | Vector xs, Shape1 n =>
      if Nat.eqb (length xs) n then Some (Vector xs)
      else
        match xs with
        | [x] => Some (Vector (repeat x n))
        | _ => None
        end
  end.

Definition bind {A B : Type} (o : option A) (f : A -> option B) : option B :=
  match o with
  | Some a => f a
  | None => None
  end.

(** An element-wise binary operator with NumPy broadcasting. *)
Definition lift2 (f : float -> float -> float) (a b : array) : option array :=
  bind (broadcast_shapes (shape_of a) (shape_of b)) (fun s =>
  bind (broadcast_to a s) (fun a' =>
  bind (broadcast_to b s) (fun b' =>
  match a', b' with
  | Scalar x, Scalar y => Some (Scalar (f x y))
  | Vector xs, Vector ys => Some (Vector (map2 f xs ys))
  | _, _ => None
  end))).

Record Bijector : Type := mkBijector {
  forward : array -> option array;
  inverse : array -> option array
}.

Definition scalar_affine (shift scale : array) : option Bijector :=
  bind (lift2 fdiv (Scalar (Fin 1)) scale) (fun inv_scale =>
  bind (broadcast_shapes (shape_of shift) (shape_of scale))
    (fun batch_shape =>
  Some (mkBijector
    (fun value =>
       bind (broadcast_shapes batch_shape (shape_of value)) (fun out_shape =>
       bind (broadcast_to scale out_shape) (fun scale' =>
       bind (broadcast_to shift out_shape) (fun shift' =>
       bind (lift2 fmul scale' value) (fun prod =>
       lift2 fadd prod shift')))))
    (fun value =>
       bind (broadcast_shapes batch_shape (shape_of value)) (fun out_shape =>
       bind (broadcast_to inv_scale out_shape) (fun inv_scale' =>
       bind (broadcast_to shift out_shape) (fun shift' =>
       bind (lift2 fsub value shift') (fun diff =>
       lift2 fmul inv_scale' diff)))))))).

(** [inverse (forward v)]: the round trip through a bijector. *)
Definition inverse_forward (b : Bijector) (v : array) : option array :=
  bind (forward b v) (inverse b).

(* ================================================================== *)
(** * Multi-restart optimizers *)
(* ================================================================== *)

(** A point has [d] coordinates, a candidate set is [q] points, that is a
    tensor of shape [(q, d)]; a pool is a list of candidate sets. *)
Definition Point : Type := list float.
Definition CandidateSet : Type := list Point.
Definition Bounds : Type := list (float * float).

(** Shapes of a score (a scalar), a score vector and a candidate set. *)
Definition shape_scalar (s : float) : list nat := [].
Definition shape_vector (v : list float) : list nat := [length v].

Definition has_shape (c : CandidateSet) (q d : nat) : Prop :=
  length c = q /\ Forall (fun p => length p = d) c.

(** [jnp.argmax]: index of the first largest element, a [nan] counting as
    the largest; it raises on an empty vector. *)
Fixpoint argmax_from (best : float) (ibest i : nat) (l : list float) : nat :=
  match l with
  | [] => ibest
  | x :: t =>
      if is_nan best then ibest
      else if orb (is_nan x) (flt best x)
           then argmax_from x i (Datatypes.S i) t
           else argmax_from best ibest (Datatypes.S i) t
  end.

Definition argmax (l : list float) : option nat :=
  match l with
  | [] => None
  | x :: t => Some (argmax_from x 0%nat 1%nat t)
  end.

Section Optimizers.

Variable Key : Type.

Definition BatchAcquisition : Type := list CandidateSet -> list float.

Definition Sampler : Type := Key -> nat -> list CandidateSet.

Definition BatchInitializer : Type :=
  Key -> list CandidateSet -> list float -> nat ->
  outcome (list CandidateSet).

Definition Solver : Type :=
  BatchAcquisition -> Bounds -> list CandidateSet ->
  list CandidateSet * list float.

Definition Optimizer (Score : Type) : Type :=
  Key -> BatchAcquisition -> Bounds -> nat -> nat -> nat ->
  outcome (CandidateSet * Score).

(** The sampler of candidate sets of [q] points inside the bounds, and the
    derivation of [n] child keys from a key. *)
Variable sampler : Bounds -> nat -> Sampler.
Variable split : Key -> nat -> list Key.

(** Modelled from the spec: the batch optimizer (section 4.3; its source
    file is not part of the sources at hand).  Sample [num_samples]
    candidate sets, score them, let the initializer choose [num_restarts]
    of them, refine each with the solver and return the restart with the
    largest refined score. *)
Definition batch (initializer : BatchInitializer) (solver : Solver)
  : Optimizer float :=
  fun key acquisition bounds q num_samples num_restarts =>
    let pool := sampler bounds q key num_samples in
    let scores := acquisition pool in
    match initializer key pool scores num_restarts with
    | Done restarts =>
        let '(candidates, values) := solver acquisition bounds restarts in
        match argmax values with
        | None => Raised
        | Some i =>
            match nth_error candidates i, nth_error values i with
            | Some c, Some v => Done (c, v)
            | _, _ => Raised
            end
        end
    | Raised => Raised
    | OutOfFuel => OutOfFuel
    end.

(** Modelled from the spec: the sequential (greedy) optimizer (section
    4.3; its source file is not part of the sources at hand).  The [q]
    points are produced one at a time by the batch procedure with a batch
    size of 1, the points already chosen being threaded to the
    acquisition; the scores of the [q] steps are collected. *)
Fixpoint sequential_steps (initializer : BatchInitializer) (solver : Solver)
  (acquisition : BatchAcquisition) (bounds : Bounds)
  (num_samples num_restarts : nat) (keys : list Key)
  (chosen : CandidateSet) (scores : list float)
  : outcome (CandidateSet * list float) :=
  match keys with
  | [] => Done (chosen, scores)
  | key :: keys' =>
      let conditioned : BatchAcquisition :=
        fun pool => acquisition (map (fun c => chosen ++ c) pool) in
      match batch initializer solver key conditioned bounds 1%nat
              num_samples num_restarts with
      | Done (c, v) =>
          sequential_steps initializer solver acquisition bounds
            num_samples num_restarts keys' (chosen ++ c) (scores ++ [v])
      | Raised => Raised
      | OutOfFuel => OutOfFuel
      end
  end.

(** Modelled from the spec: the sequential optimizer derives one child key
    per output point and runs the steps above from no chosen point. *)
Definition sequential (initializer : BatchInitializer) (solver : Solver)
  : Optimizer (list float) :=
  fun key acquisition bounds q num_samples num_restarts =>
    sequential_steps initializer solver acquisition bounds
      num_samples num_restarts (split key q) [] [].

End Optimizers.

Arguments batch {Key} sampler initializer solver _ _ _ _ _ _.
Arguments sequential_steps {Key} sampler initializer solver _ _ _ _ _ _ _.
Arguments sequential {Key} sampler split initializer solver _ _ _ _ _ _.

(* ================================================================== *)
(** * Auxiliary definitions for the statements *)
(* ================================================================== *)

(** Sum of a list of reals. *)
Definition rsum (l : list R) : R := fold_right Rplus 0 l.

(** Number of strictly positive scores. *)
Definition count_positive (ys : list R) : nat :=
  length (filter (fun y => rltb 0 y) ys).

(** The value of [alpha] after [k] iterations of the shrink loop. *)
Fixpoint shrink_alpha (alpha : float) (k : nat) : float :=
  match k with
  | O => alpha
  | S k' => shrink_alpha (fmul alpha (Fin (1 / 10))) k'
  end.

(** The contract of [jax.random.choice key a (n,) p] the initializers rely
    on: a successful draw returns [n] rows, each of them a row of [a]. *)
Definition choice_contract {Key Row : Type}
  (random_choice : Key -> list Row -> nat -> list float -> option (list Row))
  : Prop :=
  forall key a n p rows,
    random_choice key a n p = Some rows ->
    length rows = n /\ Forall (fun r => In r a) rows.

(** A degenerate sampler that meets the contract: it always draws row 0.
    It raises, as [jax.random.choice] does, when rows are requested from
    an empty array or when [p] has another length than [a]. *)
Definition first_choice {Row : Type} (key : unit) (a : list Row) (n : nat)
  (p : list float) : option (list Row) :=
  match n, a with
  | O, _ => Some []
  | _, [] => None
  | _, r :: _ =>
      if Nat.eqb (length p) (length a) then Some (repeat r n) else None
  end.

(** The collaborators of [tests/optimization/optimizers/optimizers_test.py]:
    the initializer [lambda k, x, _, n: random.choice(k, x, (n,))], the
    solver [lambda fun, _, c: (c, fun(c))], the acquisition
    [itemgetter((..., 0, 0))] and the bounds [[-1, 1]]; the sampler puts
    every point at the lower corner of the bounds, and the draw is the
    degenerate one above. *)
Definition test_sampler (bounds : Bounds) (q : nat) : Sampler unit :=
  fun _ num_samples => repeat (repeat (map fst bounds) q) num_samples.

Definition test_split (key : unit) (n : nat) : list unit := repeat key n.

Definition test_initializer : BatchInitializer unit :=
  fun k x _ n => of_option (first_choice k x n (repeat (Fin 1) (length x))).

Definition test_solver : Solver :=
  fun fn _ c => (c, fn c).

Definition test_acqf : BatchAcquisition :=
  map (fun c : CandidateSet => nth 0 (nth 0 c []) NaN).

Definition test_bounds : Bounds := [(Fin (- 1), Fin 1)].

(* ================================================================== *)
(** * The other bijectors
    [bojax/_src/prediction/bijectors/alias.py] *)
(* ================================================================== *)

(** A function applied to every element of an array. *)
Definition amap (f : float -> float) (a : array) : array :=
  match a with
  | Scalar x => Scalar (f x)
  | Vector xs => Vector (map f xs)
  end.

(** The elements of an array. *)
Definition elements (a : array) : list float :=
  match a with
  | Scalar x => [x]
  | Vector xs => xs
  end.

(** [identity()]: both directions are [identity_fn]. *)
Definition identity : Bijector :=
  mkBijector (fun value => Some value) (fun value => Some value).

(** [shift(shift)]: [value + shift] and [value - shift], with NumPy
    broadcasting. *)
Definition shift (s : array) : Bijector :=
  mkBijector
    (fun value => lift2 fadd value s)
    (fun value => lift2 fsub value s).

(** [jax.nn.softplus x = log (1 + exp x)]. *)
Definition nn_softplus (x : float) : float := flog (fadd (Fin 1) (fexp x)).

(** The inverse of [softplus] on one element:
    [value + log (- expm1 (- value))]. *)
Definition softplus_inverse_elt (v : float) : float :=
  fadd v (flog (fneg (fexpm1 (fneg v)))).

(** [softplus()]. *)
Definition softplus : Bijector :=
  mkBijector
    (fun value => Some (amap nn_softplus value))
    (fun value =>
       lift2 fadd value
         (amap (fun v => flog (fneg (fexpm1 (fneg v)))) value)).

(* ================================================================== *)
(** * Kernels
    [bojax/_src/prediction/kernels/base.py] and
    [bojax/_src/prediction/kernels/alias.py] *)
(* ================================================================== *)

(** [kernel kernel_fn = vmap (vmap kernel_fn (None, 0)) (0, None)]: the
    matrix of [kernel_fn x y] for [x] in the rows of the first argument
    and [y] in the rows of the second. *)
Definition kernel {A : Type} (kernel_fn : list float -> list float -> A)
  (xs ys : list (list float)) : list (list A) :=
  map (fun x => map (fun y => kernel_fn x y) ys) xs.

(** [jnp.inner] of two vectors; it raises when the lengths differ. *)
Definition jnp_inner (x y : list float) : option float :=
  if Nat.eqb (length x) (length y) then Some (fsum (map2 fmul x y))
  else None.

(** [x ** 2], element by element. *)
Definition vsquare (x : list float) : list float :=
  map (fun v => fmul v v) x.

Definition squared_distance (x y : list float) : option float :=
  option_map
    (fun ip =>
       fsub (fadd (fsum (vsquare x)) (fsum (vsquare y))) (fmul (Fin 2) ip))
    (jnp_inner x y).

(** [x / length_scale] for a scalar [length_scale]. *)
Definition vdiv (x : list float) (s : float) : list float :=
  map (fun v => fdiv v s) x.

(** [jnp.subtract] (and [x - y]) of two vectors, with NumPy
    broadcasting. *)
Definition jnp_subtract (x y : list float) : option (list float) :=
  match lift2 fsub (Vector x) (Vector y) with
  | Some (Vector d) => Some d
  | _ => None
  end.

(** [jnp.linalg.norm] of a vector: [sqrt (sum (x * x))]. *)
Definition linalg_norm (x : list float) : float := fsqrt (fsum (vsquare x)).

(** [jnp.sin]. *)
Definition fsin (x : float) : float :=
  match x with
  | Fin r => Fin (sin r)
  | _ => NaN
  end.

(** The [kernel_fn] of [rbf]. *)
Definition rbf_fn (length_scale : float) (x y : list float) : option float :=
  option_map
    (fun d => fexp (fmul (Fin (- (1 / 2))) d))
    (squared_distance (vdiv x length_scale) (vdiv y length_scale)).

Definition rbf (length_scale : float) := kernel (rbf_fn length_scale).

(** The [kernel_fn] of [matern_half]. *)
Definition matern_half_fn (length_scale : float) (x y : list float)
  : option float :=
  option_map
    (fun d => fexp (fneg (linalg_norm d)))
    (jnp_subtract (vdiv x length_scale) (vdiv y length_scale)).

Definition matern_half (length_scale : float) :=
  kernel (matern_half_fn length_scale).

(** The [kernel_fn] of [matern_three_halves]. *)
Definition matern_three_halves_fn (length_scale : float) (x y : list float)
  : option float :=
  option_map
    (fun d =>
       let K := fmul (linalg_norm d) (fsqrt (Fin 3)) in
       fmul (fadd (Fin 1) K) (fexp (fneg K)))
    (jnp_subtract (vdiv x length_scale) (vdiv y length_scale)).

Definition matern_three_halves (length_scale : float) :=
  kernel (matern_three_halves_fn length_scale).

(** The [kernel_fn] of [matern_five_halves]. *)
Definition matern_five_halves_fn (length_scale : float) (x y : list float)
  : option float :=
  option_map
    (fun d =>
       let K := fmul (linalg_norm d) (fsqrt (Fin 5)) in
       fmul (fadd (fadd (Fin 1) K) (fdiv (fmul K K) (Fin 3)))
         (fexp (fneg K)))
    (jnp_subtract (vdiv x length_scale) (vdiv y length_scale)).

Definition matern_five_halves (length_scale : float) :=
  kernel (matern_five_halves_fn length_scale).

(** The [kernel_fn] of [periodic]. *)
Definition periodic_fn (length_scale variance period : float)
  (x y : list float) : option float :=
  option_map
    (fun d =>
       let sine_squared :=
         vsquare
           (map (fun v =>
                   fdiv (fsin (fdiv (fmul (Fin PI) v) period)) length_scale)
              d) in
       fmul variance (fexp (fmul (Fin (- (1 / 2))) (fsum sine_squared))))
    (jnp_subtract x y).

Definition periodic (length_scale variance period : float) :=
  kernel (periodic_fn length_scale variance period).

(** The sum [sum ((sin (pi (x - y) / period) / length_scale)^2)] of the
    periodic kernel, on real vectors. *)
Definition sine_squared_sum (length_scale period : R) (xs ys : list R) : R :=
  rsum
    (map2
       (fun a b =>
          (sin (PI * (a - b) / period) / length_scale)
          * (sin (PI * (a - b) / period) / length_scale))
       xs ys).

(** Sum of the squared differences of two real vectors. *)
Definition rdist2 (xs ys : list R) : R :=
  rsum (map2 (fun a b => (a - b) * (a - b)) xs ys).

(* ================================================================== *)
(** * IEEE binary32 arithmetic *)
(* ================================================================== *)

(** The elements of a JAX array are binary32 numbers unless 64-bit mode is
    switched on: a 24-bit significand, exponents below [128], rounding to
    nearest with ties to even. *)
Definition binary32 : Type := SpecFloat.spec_float.

Definition prec32 : Z := 24%Z.
Definition emax32 : Z := 128%Z.

(** The binary32 number nearest to an integer. *)
Definition of_Z32 (z : Z) : binary32 :=
  SpecFloat.binary_normalize prec32 emax32 z 0%Z false.

Definition add32 : binary32 -> binary32 -> binary32 :=
  SpecFloat.SFadd prec32 emax32.
Definition sub32 : binary32 -> binary32 -> binary32 :=
  SpecFloat.SFsub prec32 emax32.
Definition mul32 : binary32 -> binary32 -> binary32 :=
  SpecFloat.SFmul prec32 emax32.
Definition div32 : binary32 -> binary32 -> binary32 :=
  SpecFloat.SFdiv prec32 emax32.
Definition sqrt32 : binary32 -> binary32 :=
  SpecFloat.SFsqrt prec32 emax32.

(** [scalar_affine] on binary32 scalars (every shape is [()], so nothing
    is broadcast): [inv_scale = 1 / scale],
    [forward value = scale * value + shift] and
    [inverse value = inv_scale * (value - shift)]. *)
Record Bijector32 : Type := mkBijector32 {
  forward32 : binary32 -> binary32;
  inverse32 : binary32 -> binary32
}.

Definition scalar_affine32 (shift scale : binary32) : Bijector32 :=
  let inv_scale := div32 (of_Z32 1) scale in
  mkBijector32
    (fun value => add32 (mul32 scale value) shift)
    (fun value => mul32 inv_scale (sub32 value shift)).

(** [jnp.sum] and [jnp.mean] of a binary32 vector. *)
Definition sum32 (l : list binary32) : binary32 :=
  fold_left add32 l (of_Z32 0).

Definition mean32 (l : list binary32) : binary32 :=
  div32 (sum32 l) (of_Z32 (Z.of_nat (length l))).

(** [jax.nn.standardize] on a binary32 vector, as [standardize] above;
    [1e-5] is the quotient [1 / 100000] rounded to binary32. *)
Definition standardize32 (y : list binary32) : list binary32 :=
  let mean := mean32 y in
  let variance := sub32 (mean32 (map (fun v => mul32 v v) y)) (mul32 mean mean) in
  let rsqrt :=
    div32 (of_Z32 1)
      (sqrt32 (add32 variance (div32 (of_Z32 1) (of_Z32 100000)))) in
  map (fun v => mul32 (sub32 v mean) rsqrt) y.

(* ================================================================== *)
(** * Properties of the numbers *)
(* ================================================================== *)

Lemma rltb_true (a b : R) : a < b -> rltb a b = true.
Proof. intros H; unfold rltb; destruct (Rlt_dec a b); [ reflexivity | lra ]. Qed.

Lemma rltb_false (a b : R) : b <= a -> rltb a b = false.
Proof. intros H; unfold rltb; destruct (Rlt_dec a b); [ lra | reflexivity ]. Qed.

Lemma rleb_true (a b : R) : a <= b -> rleb a b = true.
Proof. intros H; unfold rleb; destruct (Rle_dec a b); [ reflexivity | lra ]. Qed.

Lemma rleb_false (a b : R) : b < a -> rleb a b = false.
Proof. intros H; unfold rleb; destruct (Rle_dec a b); [ lra | reflexivity ]. Qed.

Lemma reqb_true (a b : R) : a = b -> reqb a b = true.
Proof.
  intros H; unfold reqb; destruct (Req_dec_T a b); [ reflexivity | contradiction ].
Qed.

Lemma reqb_false (a b : R) : a <> b -> reqb a b = false.
Proof.
  intros H; unfold reqb; destruct (Req_dec_T a b); [ contradiction | reflexivity ].
Qed.

Lemma rltb_spec (a b : R) : rltb a b = true <-> a < b.
Proof.
  unfold rltb; destruct (Rlt_dec a b); split; intros; try lra; try discriminate;
    reflexivity.
Qed.

Lemma rleb_spec (a b : R) : rleb a b = true <-> a <= b.
Proof.
  unfold rleb; destruct (Rle_dec a b); split; intros; try lra; try discriminate;
    reflexivity.
Qed.

(** Rewrite the comparisons of real constants that [lra] decides. *)
Ltac rcmp :=
  repeat first
    [ rewrite rltb_true by lra
    | rewrite rltb_false by lra
    | rewrite rleb_true by lra
    | rewrite rleb_false by lra
    | rewrite reqb_true by lra
    | rewrite reqb_false by lra ].

Lemma inf_of_sign_pos (r : R) : 0 < r -> inf_of_sign r = PInf.
Proof. intros H; unfold inf_of_sign; rcmp; reflexivity. Qed.

Lemma inf_of_sign_neg (r : R) : r < 0 -> inf_of_sign r = NInf.
Proof. intros H; unfold inf_of_sign; rcmp; reflexivity. Qed.

Lemma inf_of_sign_zero : inf_of_sign 0 = NaN.
Proof. unfold inf_of_sign; rcmp; reflexivity. Qed.

Lemma fdiv_fin (a b : R) : b <> 0 -> fdiv (Fin a) (Fin b) = Fin (a / b).
Proof. intros H; simpl; rewrite reqb_false by assumption; reflexivity. Qed.

Lemma fsqrt_fin (c : R) : 0 <= c -> fsqrt (Fin c) = Fin (sqrt c).
Proof. intros H; simpl; rcmp; reflexivity. Qed.

Lemma flog_fin (r : R) : 0 < r -> flog (Fin r) = Fin (ln r).
Proof. intros H; simpl; rcmp; reflexivity. Qed.

Lemma flog_neg (r : R) : r < 0 -> flog (Fin r) = NaN.
Proof. intros H; simpl; rcmp; reflexivity. Qed.

Lemma flt_fgt_excl (x y : float) : fgt x y = true -> flt x y = false.
Proof.
  unfold fgt; destruct x, y; simpl; try reflexivity; try discriminate.
  intros H; apply rltb_spec in H; apply rltb_false; lra.
Qed.

Lemma flt_trans (x y z : float) :
  flt x y = true -> flt y z = true -> flt x z = true.
Proof.
  destruct x, y, z; simpl; try reflexivity; try discriminate.
  intros H1 H2; apply rltb_spec in H1; apply rltb_spec in H2.
  apply rltb_true; lra.
Qed.

Lemma fle_not_fgt (x y : float) : fle x y = true -> fgt x y = false.
Proof.
  unfold fgt; destruct x, y; simpl; try reflexivity; try discriminate.
  intros H; apply rleb_spec in H; apply rltb_false; lra.
Qed.

Lemma fle_flt_trans (x y z : float) :
  fle x y = true -> flt y z = true -> flt x z = true.
Proof.
  destruct x, y, z; simpl; try reflexivity; try discriminate.
  intros H1 H2; apply rleb_spec in H1; apply rltb_spec in H2.
  apply rltb_true; lra.
Qed.

(* ------------------------------------------------------------------ *)
(** ** Vectors *)

Lemma nth_error_map2 {A B C : Type} (f : A -> B -> C) (l : list A)
  (l' : list B) (i : nat) (a : A) (b : B) :
  nth_error l i = Some a -> nth_error l' i = Some b ->
  nth_error (map2 f l l') i = Some (f a b).
Proof.
  revert l' i; induction l as [| x t IH]; intros [| y t'] [| i]; simpl;
    try discriminate.
  - intros H1 H2; inversion H1; inversion H2; reflexivity.
  - apply IH.
Qed.

Lemma map2_length {A B C : Type} (f : A -> B -> C) (l : list A) (l' : list B) :
  length (map2 f l l') = Nat.min (length l) (length l').
Proof.
  revert l'; induction l as [| x t IH]; intros [| y t']; simpl; auto.
Qed.

Lemma nth_error_diag (m : list (list float)) (i : nat) :
  (i < length m)%nat ->
  nth_error (diag m) i = Some (nth i (nth i m []) NaN).
Proof.
  intros H; unfold diag.
  rewrite nth_error_map, nth_error_seq.
  destruct (Nat.ltb_spec i (length m)); [ reflexivity | lia ].
Qed.

Lemma nth_error_scale_of (cov : list (list float)) (i : nat) :
  (i < length cov)%nat ->
  nth_error (scale_of cov) i = Some (fsqrt (nth i (nth i cov []) NaN)).
Proof.
  intros H; unfold scale_of, compose.
  rewrite nth_error_map, nth_error_diag by assumption; reflexivity.
Qed.

Lemma nth_error_scale_improvement (loc scale : list float) (best : float)
  (i : nat) (l s : float) :
  nth_error loc i = Some l -> nth_error scale i = Some s ->
  nth_error (scale_improvement loc scale best) i
  = Some (fdiv (fsub l best) s).
Proof.
  intros Hl Hs; unfold scale_improvement.
  apply nth_error_map2; [ | assumption ].
  rewrite nth_error_map, Hl; reflexivity.
Qed.

(* ================================================================== *)
(** * Acquisition functions: the formulas *)
(* ================================================================== *)

Lemma ln_sqrt_half (x : R) : 0 < x -> ln (sqrt x) = ln x / 2.
Proof.
  intros H.
  assert (Hs : 0 < sqrt x) by (apply sqrt_lt_R0; assumption).
  assert (E : ln (sqrt x * sqrt x) = ln x) by (rewrite sqrt_sqrt; lra).
  rewrite ln_mult in E by assumption; lra.
Qed.

Lemma log_sqrt_pi_div_2_eq : _log_sqrt_pi_div_2 = Fin (ln (sqrt (PI / 2))).
Proof.
  unfold _log_sqrt_pi_div_2; rewrite ln_sqrt_half; [ reflexivity | ].
  generalize PI_RGT_0; lra.
Qed.

Lemma log_ei_eps_spec_g (z : float) : log_ei_eps z = log1mexp (spec_g z).
Proof.
  unfold log_ei_eps, spec_g, _neg_inv_sqrt2.
  rewrite log_sqrt_pi_div_2_eq; reflexivity.
Qed.

Lemma fsub_twice (a b : float) :
  fsub a (fmul (Fin 2) b) = fadd a (fmul b (Fin (- 2))).
Proof.
  unfold fsub; f_equal.
  destruct b as [r | | |]; simpl.
  - f_equal; ring.
  - rewrite inf_of_sign_pos, inf_of_sign_neg by lra; reflexivity.
  - rewrite inf_of_sign_neg by lra.
    rewrite inf_of_sign_pos by lra; reflexivity.
  - reflexivity.
Qed.

(** The regime of the direct formula. *)
Lemma log_ei_upper_regime (z : float) :
  fgt z (Fin (- 1)) = true ->
  log_ei z = flog (fadd (norm_pdf z) (fmul z (norm_cdf z))).
Proof.
  intros H; unfold log_ei, where_.
  rewrite H, (flt_fgt_excl _ _ H); reflexivity.
Qed.

(** The regime of the stabilised expansion. *)
Lemma log_ei_middle_regime (z : float) :
  fgt z (Fin (- 1000000)) = true -> fle z (Fin (- 1)) = true ->
  log_ei z = fadd (norm_logpdf z) (log1mexp (spec_g z)).
Proof.
  intros H1 H2; unfold log_ei, where_, _neg_inv_sqrt_eps.
  rewrite (fle_not_fgt _ _ H2), H1, (flt_fgt_excl _ _ H1).
  rewrite log_ei_eps_spec_g; reflexivity.
Qed.

(** The regime of the asymptotic tail. *)
Lemma log_ei_lower_regime (z : float) :
  fle z (Fin (- 1000000)) = true ->
  log_ei z = fsub (norm_logpdf z) (fmul (Fin 2) (flog (fabs z))).
Proof.
  intros H; unfold log_ei, where_, _neg_inv_sqrt_eps.
  rewrite (fle_not_fgt _ _ H).
  assert (H' : fgt z (Fin (- 1)) = false).
  { destruct (fgt z (Fin (- 1))) eqn:E; [ | reflexivity ].
    unfold fgt in E.
    assert (Hlt : flt (Fin (- 1000000)) (Fin (- 1)) = true)
      by (simpl; rcmp; reflexivity).
    assert (C := flt_trans _ _ _ Hlt E).
    assert (C' := fle_not_fgt _ _ H); unfold fgt in C'; congruence. }
  rewrite H', fsub_twice; reflexivity.
Qed.

(* ================================================================== *)
(** * The error function at [1 / sqrt 2] *)
(* ================================================================== *)

Lemma cubic_derivable_pt_lim (x : R) : derivable_pt_lim cubic x (1 - x * x).
Proof.
  unfold cubic.
  replace (1 - x * x) with (1 - (/3) * (INR 3 * x ^ pred 3)) by (simpl; field).
  apply (derivable_pt_lim_minus id (fun t => t ^ 3 / 3)).
  - apply derivable_pt_lim_id.
  - assert (H := derivable_pt_lim_scal (fun y => y ^ 3) (/3) x _ (derivable_pt_lim_pow x 3)).
    unfold mult_real_fct in H.
    eapply derivable_pt_lim_ext; [ | exact H ].
    intros t; simpl; field.
Qed.

Lemma cubic_derivable : derivable cubic.
Proof. intros x; exists (1 - x * x); apply cubic_derivable_pt_lim. Qed.

Lemma cubic_derive (x : R) : derive cubic cubic_derivable x = 1 - x * x.
Proof. unfold derive; apply derive_pt_eq_0, cubic_derivable_pt_lim. Qed.

Lemma cubic_derive_continuity : continuity (derive cubic cubic_derivable).
Proof.
  intros x.
  apply (continuity_pt_locally_ext (fun t => 1 - t * t) _ 1 x); [ lra | | ].
  - intros y _; symmetry; apply cubic_derive.
  - apply derivable_continuous_pt. exists (- (2 * x)).
    replace (- (2 * x)) with (0 - (1 * x + x * 1)) by ring.
    apply (derivable_pt_lim_minus (fct_cte 1) (id * id)%F).
    + apply derivable_pt_lim_const.
    + apply derivable_pt_lim_mult; apply derivable_pt_lim_id.
Qed.

Lemma gauss_le_1 (t : R) : 0 <= gauss t <= 1.
Proof.
  unfold gauss; split; [ left; apply exp_pos | ].
  rewrite <- exp_0.
  destruct (Req_dec (t * t) 0) as [E | E].
  - rewrite E, Ropp_0; lra.
  - left; apply exp_increasing. nra.
Qed.

Lemma gauss_integral_bounds (a : R) :
  0 <= a ->
  a - a ^ 3 / 3 <= RiemannInt (gauss_integrable 0 a) <= a.
Proof.
  intros Ha; split.
  - pose (cubic_C1 := mkC1 cubic_derive_continuity).
    assert (Hint : Riemann_integrable (derive cubic_C1 (diff0 cubic_C1)) 0 a)
      by apply RiemannInt_P32.
    assert (Hval : RiemannInt Hint = a - a ^ 3 / 3).
    { rewrite (FTC_Riemann cubic_C1 Hint); simpl; unfold cubic; simpl; field. }
    rewrite <- Hval.
    apply RiemannInt_P19; [ exact Ha | ].
    intros x _. simpl. rewrite cubic_derive. unfold gauss.
    generalize (exp_ineq1_le (- (x * x))); lra.
  - generalize (@RiemannInt_const_bound gauss 0 a 0 1 (gauss_integrable 0 a) Ha
                  (fun x _ => gauss_le_1 x)); lra.
Qed.

(** sqrt 2 facts *)
Lemma sqrt2_pos : 0 < sqrt 2.
Proof. apply sqrt_lt_R0; lra. Qed.

Lemma sqrt2_sq : sqrt 2 * sqrt 2 = 2.
Proof. apply sqrt_sqrt; lra. Qed.

Lemma PI_upper : PI <= 68 / 21.
Proof.
  destruct (PI_2_3_7_ineq 0) as [_ H].
  simpl in H. unfold tg_alt, PI_2_3_7_tg, Ratan_seq in H. simpl in H.
  lra.
Qed.

Lemma PI_lower : 2 < PI.
Proof. generalize PI2_1; lra. Qed.

Lemma exp_half_upper : exp (/ 2) <= (16 / 15) ^ 8.
Proof.
  assert (H : exp (/ 16) <= 16 / 15).
  { assert (H1 := exp_ineq1_le (- / 16)).
    assert (H2 : exp (- / 16) * exp (/ 16) = 1).
    { rewrite <- exp_plus. replace (- / 16 + / 16) with 0 by lra. apply exp_0. }
    assert (H3 := exp_pos (/ 16)). nra. }
  replace (/ 2) with (/16 + /16 + /16 + /16 + /16 + /16 + /16 + /16) by lra.
  rewrite !exp_plus.
  assert (H0 := exp_pos (/ 16)).
  simpl.
  set (e := exp (/16)) in *.
  assert (e * e <= 16/15 * (16/15)) by nra.
  assert (0 < e * e) by nra.
  assert (e * e * (e * e) <= 16/15 * (16/15) * (16/15 * (16/15))) by nra.
  assert (0 < e * e * (e * e)) by nra.
  nra.
Qed.

Lemma sqrt_half_pi_bounds : 1 < sqrt (PI / 2) <= 1273 / 1000.
Proof.
  split.
  - rewrite <- sqrt_1. apply sqrt_lt_1_alt. generalize PI_lower; lra.
  - rewrite <- (sqrt_square (1273 / 1000)) by lra.
    apply sqrt_le_1_alt. generalize PI_upper; lra.
Qed.

Lemma erfc_inv_sqrt2_scaled :
  erfc (/ sqrt 2) * sqrt (PI / 2)
  = sqrt (PI / 2) - sqrt 2 * RiemannInt (gauss_integrable 0 (/ sqrt 2)).
Proof.
  unfold erfc, erf.
  set (I := RiemannInt (gauss_integrable 0 (/ sqrt 2))).
  assert (Hpi := PI_RGT_0).
  assert (Hp : 0 < sqrt PI) by (apply sqrt_lt_R0; lra).
  assert (H2 := sqrt2_pos). assert (H22 := sqrt2_sq).
  assert (E : sqrt (PI / 2) = sqrt PI / sqrt 2) by (apply sqrt_div_alt; lra).
  rewrite E.
  set (p := sqrt PI) in *. set (q := sqrt 2) in *.
  assert (Hq : 2 / q = q).
  { apply (Rmult_eq_reg_r q); [ | lra ].
    unfold Rdiv; rewrite Rmult_assoc, Rinv_l; lra. }
  transitivity (p / q - 2 / q * I); [ field; lra | ].
  rewrite Hq; reflexivity.
Qed.

Lemma mills_minus_one_bounds : 0 < mills_minus_one <= 3 / 4.
Proof.
  unfold mills_minus_one.
  rewrite Rmult_assoc, erfc_inv_sqrt2_scaled.
  assert (H2 := sqrt2_pos). assert (H22 := sqrt2_sq).
  assert (Ha : 0 <= / sqrt 2) by (left; apply Rinv_0_lt_compat; exact H2).
  destruct (gauss_integral_bounds (/ sqrt 2) Ha) as [Hlo Hhi].
  set (I := RiemannInt (gauss_integrable 0 (/ sqrt 2))) in *.
  assert (Hq : sqrt 2 * / sqrt 2 = 1) by (apply Rinv_r; lra).
  assert (Hcube : (/ sqrt 2) ^ 3 = / sqrt 2 / 2).
  { simpl. field_simplify; try lra. rewrite <- H22 at 2. field; lra. }
  rewrite Hcube in Hlo.
  destruct sqrt_half_pi_bounds as [Hs1 Hs2].
  assert (He := exp_half_upper). assert (He0 := exp_pos (/ 2)).
  set (q := sqrt 2) in *. set (a := / q) in *. set (s := sqrt (PI / 2)) in *.
  set (e := exp (/ 2)) in *.
  assert (H5 : 5 / 6 <= q * I) by nra.
  assert (H6 : q * I <= 1) by nra.
  split.
  - apply Rmult_lt_0_compat; lra.
  - assert (Hb : s - q * I <= 1273 / 1000 - 5 / 6) by lra.
    assert (Hpow : (16 / 15) ^ 8 * (1273 / 1000 - 5 / 6) <= 3 / 4) by (simpl; lra).
    assert (0 < s - q * I) by lra.
    apply Rle_trans with ((16 / 15) ^ 8 * (1273 / 1000 - 5 / 6)); [ | exact Hpow ].
    apply Rmult_le_compat; lra.
Qed.

(* ================================================================== *)
(** * [log_ei] at the regime boundary [z = -1] *)
(* ================================================================== *)

Lemma ln_ge_quarter (x : R) : 4 / 3 <= x -> / 4 <= ln x.
Proof.
  intros H.
  assert (H1 := exp_ineq1_le (- / 4)).
  assert (H2 : exp (- / 4) * exp (/ 4) = 1).
  { rewrite <- exp_plus. replace (- / 4 + / 4) with 0 by lra. apply exp_0. }
  assert (H3 := exp_pos (/ 4)).
  assert (H4 : exp (/ 4) <= x) by nra.
  rewrite <- (ln_exp (/ 4)).
  destruct H4 as [H4 | H4]; [ left; apply ln_increasing; lra | rewrite H4; lra ].
Qed.

Lemma sqrt_2pi : sqrt (2 * PI) = 2 * sqrt (PI / 2).
Proof.
  assert (Hpi := PI_RGT_0).
  replace (2 * PI) with (2 * 2 * (PI / 2)) by field.
  rewrite sqrt_mult by lra.
  rewrite sqrt_square by lra; reflexivity.
Qed.

(** [Phi (-1) = phi (-1) * (Phi (-1) / phi (-1))], the ratio being written
    with [erfc]. *)
Lemma Phi_minus_one : Phi (- 1) = phi (- 1) * mills_minus_one.
Proof.
  unfold Phi, phi, mills_minus_one.
  rewrite sqrt_2pi.
  replace (- - 1 / sqrt 2) with (/ sqrt 2) by (field; generalize sqrt2_pos; lra).
  replace (- (- 1 * - 1) / 2) with (- / 2) by field.
  assert (Hs : 0 < sqrt (PI / 2)) by (generalize sqrt_half_pi_bounds; lra).
  assert (He : exp (- / 2) * exp (/ 2) = 1).
  { rewrite <- exp_plus. replace (- / 2 + / 2) with 0 by lra. apply exp_0. }
  transitivity (exp (- / 2) * exp (/ 2) * (erfc (/ sqrt 2) / 2));
    [ rewrite He; ring | field; lra ].
Qed.

Lemma phi_pos (z : R) : 0 < phi z.
Proof.
  unfold phi; apply Rdiv_lt_0_compat; [ apply exp_pos | ].
  apply sqrt_lt_R0; generalize PI_RGT_0; lra.
Qed.

Lemma ln_phi (z : R) : ln (phi z) = - (z * z) / 2 - ln (sqrt (2 * PI)).
Proof.
  unfold phi, Rdiv at 1.
  assert (Hs : 0 < sqrt (2 * PI))
    by (apply sqrt_lt_R0; generalize PI_RGT_0; lra).
  rewrite ln_mult; [ | apply exp_pos | apply Rinv_0_lt_compat; exact Hs ].
  rewrite ln_exp, ln_Rinv by exact Hs; lra.
Qed.

(** The value of the direct formula at [z = -1]. *)
Lemma log_ei_upper_minus_one :
  log_ei_upper (Fin (- 1))
  = Fin (ln (phi (- 1)) + ln (1 - mills_minus_one)).
Proof.
  unfold log_ei_upper; simpl norm_pdf; simpl norm_cdf; simpl fmul; simpl fadd.
  destruct mills_minus_one_bounds as [Hr0 Hr1].
  assert (Hphi := phi_pos (- 1)).
  assert (E : phi (- 1) + - 1 * Phi (- 1) = phi (- 1) * (1 - mills_minus_one))
    by (rewrite Phi_minus_one; ring).
  rewrite E, flog_fin by (apply Rmult_lt_0_compat; lra).
  rewrite ln_mult by lra; reflexivity.
Qed.

(** The argument [g (-1)] of [log1mexp] is the logarithm of the ratio. *)
Lemma spec_g_minus_one : spec_g (Fin (- 1)) = Fin (ln mills_minus_one).
Proof.
  unfold spec_g, erfcx; simpl fmul; simpl fexp; simpl ferfc; simpl fabs.
  simpl fmul.
  assert (H2 := sqrt2_pos). assert (H22 := sqrt2_sq).
  replace (- / sqrt 2 * - 1) with (/ sqrt 2) by ring.
  replace (/ sqrt 2 * / sqrt 2) with (/ 2)
    by (rewrite <- Rinv_mult, H22; reflexivity).
  rewrite (Rabs_left (- 1)) by lra.
  replace (- - 1) with 1 by ring. rewrite Rmult_1_r.
  destruct mills_minus_one_bounds as [Hr0 _].
  assert (Hs : 0 < sqrt (PI / 2)) by (generalize sqrt_half_pi_bounds; lra).
  assert (Hp : 0 < exp (/ 2) * erfc (/ sqrt 2)).
  { unfold mills_minus_one in Hr0.
    destruct (Rle_lt_dec (exp (/ 2) * erfc (/ sqrt 2)) 0) as [C | C];
      [ | exact C ].
    assert (exp (/ 2) * erfc (/ sqrt 2) * sqrt (PI / 2) <= 0) by nra. lra. }
  rewrite flog_fin by exact Hp.
  simpl fadd. rewrite <- ln_mult by assumption. reflexivity.
Qed.

(** What the helper returns on a finite negative argument [ln r],
    [0 < r < 1]: the logarithm of [1 / r - 1] or of [1 + 1 / r]. *)
Lemma log1mexp_ln (r : R) :
  0 < r < 1 ->
  log1mexp (Fin (ln r))
  = Fin (if Rlt_dec (- ln 2) (ln r) then ln (/ r - 1) else ln (1 + / r)).
Proof.
  intros [H0 H1].
  assert (He : exp (- ln r) = / r) by (rewrite exp_Ropp, exp_ln; lra).
  assert (Hi : 1 < / r).
  { rewrite <- Rinv_1. apply Rinv_lt_contravar; lra. }
  unfold log1mexp, where_, _log2, fexpm1, flog1p; simpl fneg; simpl fexp.
  simpl flt; unfold rltb.
  destruct (Rlt_dec (- ln 2) (ln r)).
  - simpl fsub. rewrite He, flog_fin by lra. reflexivity.
  - simpl fadd. rewrite He, flog_fin by lra. reflexivity.
Qed.

(** The value the code returns at [z = -1] (the stabilised expansion). *)
Lemma log_ei_minus_one :
  log_ei (Fin (- 1))
  = Fin (ln (phi (- 1))
         + (if Rlt_dec (- ln 2) (ln mills_minus_one)
            then ln (/ mills_minus_one - 1)
            else ln (1 + / mills_minus_one))).
Proof.
  rewrite log_ei_middle_regime;
    [ | simpl; rcmp; reflexivity | simpl; rcmp; reflexivity ].
  destruct mills_minus_one_bounds as [Hr0 Hr1].
  rewrite spec_g_minus_one, log1mexp_ln by lra.
  simpl norm_logpdf. rewrite <- ln_phi. reflexivity.
Qed.

(** C4, the code at [z = -1]: the value returned there (the stabilised
    expansion, since [-1 > -1] is false) exceeds the value of the direct
    formula [log (pdf z + z * cdf z)], which is returned for every
    [z > -1], by at least [1/4]: the two branches do not agree at the
    boundary. *)
Theorem log_ei_jump_at_bound :
  (forall z : R, - 1 < z -> log_ei (Fin z) = log_ei_upper (Fin z))
  /\ exists m u : R,
       log_ei (Fin (- 1)) = Fin m
       /\ log_ei_upper (Fin (- 1)) = Fin u
       /\ / 4 <= m - u.
Proof.
  split.
  - intros z Hz. rewrite log_ei_upper_regime; [ reflexivity | ].
    simpl; rcmp; reflexivity.
  - eexists; eexists; split; [ apply log_ei_minus_one | ].
    split; [ apply log_ei_upper_minus_one | ].
    destruct mills_minus_one_bounds as [Hr0 Hr1].
    set (r := mills_minus_one) in *.
    assert (Hi : 4 / 3 <= / r).
    { replace (4 / 3) with (/ (3 / 4)) by field.
      apply Rinv_le_contravar; lra. }
    assert (Hn : ln (1 - r) < 0).
    { rewrite <- ln_1. apply ln_increasing; lra. }
    destruct (Rlt_dec (- ln 2) (ln r)).
    + replace (/ r - 1) with ((1 - r) * / r) by (field; lra).
      rewrite ln_mult; [ | lra | apply Rinv_0_lt_compat; lra ].
      generalize (ln_ge_quarter (/ r) Hi); lra.
    + assert (H := ln_ge_quarter (1 + / r)).
      assert (4 / 3 <= 1 + / r) by lra.
      specialize (H H0); lra.
Qed.

(** The helper's value on [ln r] is above [ln (1 - r)], the value of
    [log (1 - exp (ln r))], by at least [1/4] when [0 < r <= 3/4]. *)
Lemma log1mexp_gap (r : R) :
  0 < r <= 3 / 4 ->
  / 4 <= (if Rlt_dec (- ln 2) (ln r) then ln (/ r - 1) else ln (1 + / r))
         - ln (1 - r).
Proof.
  intros [Hr0 Hr1].
  assert (Hi : 4 / 3 <= / r).
  { replace (4 / 3) with (/ (3 / 4)) by field.
    apply Rinv_le_contravar; lra. }
  assert (Hn : ln (1 - r) < 0).
  { rewrite <- ln_1. apply ln_increasing; lra. }
  destruct (Rlt_dec (- ln 2) (ln r)).
  - replace (/ r - 1) with ((1 - r) * / r) by (field; lra).
    rewrite ln_mult; [ | lra | apply Rinv_0_lt_compat; lra ].
    generalize (ln_ge_quarter (/ r) Hi); lra.
  - assert (H : 4 / 3 <= 1 + / r) by lra.
    generalize (ln_ge_quarter (1 + / r) H); lra.
Qed.

(** The normalised expected improvement [pdf z + z * cdf z] at [z = -1]. *)
Lemma expected_improvement_minus_one :
  phi (- 1) + - 1 * Phi (- 1) = phi (- 1) * (1 - mills_minus_one).
Proof. rewrite Phi_minus_one; ring. Qed.

(** C1, the code at a candidate of the middle regime: with mean [-1],
    variance [1] and [best = 0] the standardised improvement is [z = -1],
    where the score is to be the stabilised expansion of
    [log (pdf z + z * cdf z)].  The expected improvement there is positive,
    so its logarithm is a number; the score the code returns is a number
    too, but it is above that logarithm by at least [1/4]: the helper
    [log1mexp] evaluates [log (expm1 (- g))] or [log1p (exp (- g))] where
    [log (1 - exp g)] is due. *)
Theorem log_expected_improvement_middle_regime :
  exists s : R,
    log_expected_improvement (Fin 0)
      (fun _ : unit => ([Fin (- 1)], [[Fin 1]])) tt = [Fin s]
    /\ 0 < phi (- 1) + - 1 * Phi (- 1)
    /\ / 4 <= s - ln (phi (- 1) + - 1 * Phi (- 1)).
Proof.
  destruct mills_minus_one_bounds as [Hr0 Hr1].
  assert (Hphi := phi_pos (- 1)).
  assert (Hs : scale_of [[Fin 1]] = [Fin 1]).
  { unfold scale_of, compose, diag; simpl.
    rewrite rltb_false by lra. rewrite sqrt_1. reflexivity. }
  assert (Hz : fdiv (fsub (Fin (- 1)) (Fin 0)) (Fin 1) = Fin (- 1)).
  { simpl fsub. rewrite fdiv_fin by lra. f_equal; field. }
  exists (ln (phi (- 1))
          + (if Rlt_dec (- ln 2) (ln mills_minus_one)
             then ln (/ mills_minus_one - 1)
             else ln (1 + / mills_minus_one))).
  split; [ | split ].
  - rewrite <- log_ei_minus_one.
    change (map log_ei
              (scale_improvement [Fin (- 1)] (scale_of [[Fin 1]]) (Fin 0))
            = [log_ei (Fin (- 1))]).
    rewrite Hs. unfold scale_improvement. cbn [map map2].
    rewrite Hz. reflexivity.
  - rewrite expected_improvement_minus_one.
    apply Rmult_lt_0_compat; lra.
  - rewrite expected_improvement_minus_one, ln_mult by lra.
    generalize (log1mexp_gap mills_minus_one (conj Hr0 Hr1)). lra.
Qed.

(* ================================================================== *)
(** * Log probability of improvement *)
(* ================================================================== *)

Lemma nth_error_log_probability_of_improvement (Candidates : Type)
  (process : Process Candidates) (x : Candidates) (best l s : float)
  (loc : list float) (cov : list (list float)) (i : nat) :
  process x = (loc, cov) ->
  nth_error loc i = Some l ->
  nth_error (scale_of cov) i = Some s ->
  nth_error (log_probability_of_improvement best process x) i
  = Some (norm_logcdf (fdiv (fsub l best) s)).
Proof.
  intros Hp Hl Hs; unfold log_probability_of_improvement; rewrite Hp.
  rewrite nth_error_map.
  rewrite (nth_error_scale_improvement _ _ best _ _ _ Hl Hs); reflexivity.
Qed.

Lemma scale_of_defined (cov : list (list float)) (i : nat) (s : float) :
  nth_error (scale_of cov) i = Some s ->
  s = fsqrt (nth i (nth i cov []) NaN).
Proof.
  intros H.
  assert (Hi : (i < length cov)%nat).
  { assert (Hn : nth_error (scale_of cov) i <> None) by congruence.
    apply nth_error_Some in Hn.
    unfold scale_of, compose, diag in Hn.
    rewrite !length_map, length_seq in Hn; exact Hn. }
  rewrite nth_error_scale_of in H by exact Hi; congruence.
Qed.

(** C6: for a candidate whose scale [s = sqrt (diag cov)] is positive (and
    finite, as are [loc] and [best]), the score of
    [log_probability_of_improvement] is exactly
    [log (Phi ((loc - best) / s))]. *)
Theorem log_probability_of_improvement_correct (Candidates : Type)
  (process : Process Candidates) (x : Candidates) (best l s : R)
  (loc : list float) (cov : list (list float)) (i : nat) :
  process x = (loc, cov) ->
  nth_error loc i = Some (Fin l) ->
  nth_error (scale_of cov) i = Some (Fin s) ->
  0 < s ->
  Fin s = fsqrt (nth i (nth i cov []) NaN)
  /\ nth_error (log_probability_of_improvement (Fin best) process x) i
     = Some (Fin (ln (Phi ((l - best) / s)))).
Proof.
  intros Hp Hl Hs Hpos; split.
  - apply scale_of_defined; exact Hs.
  - rewrite (nth_error_log_probability_of_improvement _ _ _ _ _ _ _ _ _
               Hp Hl Hs).
    simpl fsub. rewrite fdiv_fin by lra. reflexivity.
Qed.

Lemma log_probability_of_improvement_correct_witness :
  Fin (sqrt 4) = fsqrt (nth 0 (nth 0 [[Fin 4]] []) NaN)
  /\ nth_error
       (log_probability_of_improvement (Fin 0)
          (fun _ : unit => ([Fin 1], [[Fin 4]])) tt) 0
     = Some (Fin (ln (Phi ((1 - 0) / sqrt 4)))).
Proof.
  apply (log_probability_of_improvement_correct unit
           (fun _ : unit => ([Fin 1], [[Fin 4]])) tt 0 1 (sqrt 4)
           [Fin 1] [[Fin 4]] 0).
  - reflexivity.
  - reflexivity.
  - unfold scale_of, compose, diag; simpl.
    rewrite rltb_false by lra. reflexivity.
  - apply sqrt_lt_R0; lra.
Defined.

(** C9, as the code has it: at a candidate of scale [0] with finite [loc],
    the division does not fault and the score of
    [log_probability_of_improvement] is [0] when [loc > best], [-inf] when
    [loc < best], and [nan] exactly when [loc = best]. *)
Theorem log_probability_of_improvement_zero_scale (Candidates : Type)
  (process : Process Candidates) (x : Candidates) (best l : R)
  (loc : list float) (cov : list (list float)) (i : nat) :
  process x = (loc, cov) ->
  nth_error loc i = Some (Fin l) ->
  nth_error (scale_of cov) i = Some (Fin 0) ->
  exists v : float,
    nth_error (log_probability_of_improvement (Fin best) process x) i = Some v
    /\ (best < l -> v = Fin 0)
    /\ (l < best -> v = NInf)
    /\ (v = NaN <-> l = best).
Proof.
  intros Hp Hl Hs.
  rewrite (nth_error_log_probability_of_improvement _ _ _ _ _ _ _ _ _
             Hp Hl Hs).
  eexists; split; [ reflexivity | ].
  simpl fsub. simpl fdiv. rewrite reqb_true by reflexivity.
  destruct (Rtotal_order l best) as [H | [H | H]].
  - rewrite inf_of_sign_neg by lra. simpl.
    repeat split; intros; try lra; try discriminate; reflexivity.
  - subst l. replace (best + - best) with 0 by ring.
    rewrite inf_of_sign_zero. simpl.
    repeat split; intros; try lra; reflexivity.
  - rewrite inf_of_sign_pos by lra. simpl.
    repeat split; intros; try lra; try discriminate; reflexivity.
Qed.

Lemma log_probability_of_improvement_zero_scale_witness :
  exists v : float,
    nth_error
      (log_probability_of_improvement (Fin 0)
         (fun _ : unit => ([Fin 1], [[Fin 0]])) tt) 0 = Some v
    /\ (0 < 1 -> v = Fin 0)
    /\ (1 < 0 -> v = NInf)
    /\ (v = NaN <-> 1 = 0).
Proof.
  apply (log_probability_of_improvement_zero_scale unit
           (fun _ : unit => ([Fin 1], [[Fin 0]])) tt 0 1
           [Fin 1] [[Fin 0]] 0).
  - reflexivity.
  - reflexivity.
  - unfold scale_of, compose, diag; simpl.
    rewrite rltb_false by lra. rewrite sqrt_0. reflexivity.
Defined.

(** C9, counterexample: the process with mean [0] and variance [0] and
    [best = 0] are finite and well formed, and the score is [nan]. *)
Lemma log_probability_of_improvement_nan :
  log_probability_of_improvement (Fin 0)
    (fun _ : unit => ([Fin 0], [[Fin 0]])) tt
  = [NaN].
Proof.
  unfold log_probability_of_improvement, scale_of, compose, diag,
    scale_improvement; simpl.
  rewrite rltb_false by lra. rewrite sqrt_0.
  rewrite reqb_true by reflexivity.
  replace (0 + - 0) with 0 by ring.
  rewrite inf_of_sign_zero. reflexivity.
Qed.

(** At a candidate of scale [0] the standardised improvement is infinite;
    [log_ei] then returns the limit of its formula. *)
Lemma log_ei_pinf : log_ei PInf = PInf.
Proof.
  rewrite log_ei_upper_regime by reflexivity.
  simpl. rewrite inf_of_sign_pos by lra. reflexivity.
Qed.

Lemma log_ei_ninf : log_ei NInf = NInf.
Proof.
  rewrite log_ei_lower_regime by reflexivity.
  simpl. rewrite inf_of_sign_pos by lra. reflexivity.
Qed.

(** At a candidate of scale [0] the upper confidence bound is the mean. *)
Lemma upper_confidence_bound_zero_scale (Candidates : Type)
  (process : Process Candidates) (x : Candidates) (beta l : R)
  (loc : list float) (cov : list (list float)) (i : nat) :
  process x = (loc, cov) ->
  nth_error loc i = Some (Fin l) ->
  nth_error (scale_of cov) i = Some (Fin 0) ->
  0 <= beta ->
  nth_error (upper_confidence_bound (Fin beta) process x) i = Some (Fin l).
Proof.
  intros Hp Hl Hs Hb. unfold upper_confidence_bound; rewrite Hp.
  erewrite nth_error_map2; [ | exact Hl | rewrite nth_error_map, Hs; reflexivity ].
  rewrite fsqrt_fin by exact Hb. cbn [fmul fadd].
  do 2 f_equal. ring.
Qed.

(* ================================================================== *)
(** * The affine bijector *)
(* ================================================================== *)

Lemma map2_repeat_l {A B C : Type} (f : A -> B -> C) (a : A) (l : list B) :
  map2 f (repeat a (length l)) l = map (f a) l.
Proof. induction l as [| b t IH]; simpl; [ | rewrite IH ]; reflexivity. Qed.

Lemma map2_repeat_r {A B C : Type} (f : A -> B -> C) (b : B) (l : list A) :
  map2 f l (repeat b (length l)) = map (fun a => f a b) l.
Proof. induction l as [| a t IH]; simpl; [ | rewrite IH ]; reflexivity. Qed.

Lemma lift2_vector_repeat_l (f : float -> float -> float) (a : float)
  (xs : list float) :
  lift2 f (Vector (repeat a (length xs))) (Vector xs)
  = Some (Vector (map (f a) xs)).
Proof.
  unfold lift2; simpl.
  rewrite ?repeat_length, ?Nat.eqb_refl; simpl.
  rewrite ?repeat_length, ?Nat.eqb_refl; simpl.
  rewrite map2_repeat_l; reflexivity.
Qed.

Lemma lift2_vector_repeat_r (f : float -> float -> float) (b : float)
  (xs : list float) :
  lift2 f (Vector xs) (Vector (repeat b (length xs)))
  = Some (Vector (map (fun x => f x b) xs)).
Proof.
  unfold lift2; simpl.
  rewrite ?repeat_length, ?Nat.eqb_refl; simpl.
  rewrite ?repeat_length, ?Nat.eqb_refl; simpl.
  rewrite map2_repeat_r; reflexivity.
Qed.

(** The bijector built from a scalar shift and a non-zero scalar scale:
    [forward] and [inverse] act element by element and keep the shape. *)
Lemma scalar_affine_scalar (shift scale : R) :
  scale <> 0 ->
  exists b : Bijector,
    scalar_affine (Scalar (Fin shift)) (Scalar (Fin scale)) = Some b
    /\ (forall x, forward b (Scalar x)
          = Some (Scalar (fadd (fmul (Fin scale) x) (Fin shift))))
    /\ (forall xs, forward b (Vector xs)
          = Some (Vector (map (fun x => fadd (fmul (Fin scale) x) (Fin shift))
                            xs)))
    /\ (forall x, inverse b (Scalar x)
          = Some (Scalar (fmul (Fin (1 / scale)) (fsub x (Fin shift)))))
    /\ (forall xs, inverse b (Vector xs)
          = Some (Vector (map (fun x => fmul (Fin (1 / scale))
                                          (fsub x (Fin shift))) xs))).
Proof.
  intros Hs. unfold scalar_affine.
  replace (lift2 fdiv (Scalar (Fin 1)) (Scalar (Fin scale)))
    with (Some (Scalar (Fin (1 / scale))))
    by (unfold lift2; simpl; rewrite reqb_false by assumption; reflexivity).
  cbn [bind broadcast_shapes shape_of].
  eexists; split; [ reflexivity | ].
  split; [ | split; [ | split ] ]; intros;
    cbn [forward inverse bind broadcast_shapes shape_of broadcast_to].
  - reflexivity.
  - rewrite lift2_vector_repeat_l. cbn [bind].
    rewrite <- (length_map (fmul (Fin scale)) xs).
    rewrite lift2_vector_repeat_r, map_map. reflexivity.
  - reflexivity.
  - rewrite lift2_vector_repeat_r. cbn [bind].
    rewrite <- (length_map (fun x => fsub x (Fin shift)) xs).
    rewrite lift2_vector_repeat_l, map_map. reflexivity.
Qed.

(** The bijector built from any scalar shift and scale: nothing is raised,
    and [forward] and [inverse] act element by element on every array. *)
Lemma scalar_affine_scalars (shift scale : float) :
  exists b : Bijector,
    scalar_affine (Scalar shift) (Scalar scale) = Some b
    /\ (forall v : array,
          forward b v = Some (amap (fun x => fadd (fmul scale x) shift) v))
    /\ (forall v : array,
          inverse b v
          = Some (amap (fun x => fmul (fdiv (Fin 1) scale) (fsub x shift)) v)).
Proof.
  unfold scalar_affine.
  change (lift2 fdiv (Scalar (Fin 1)) (Scalar scale))
    with (Some (Scalar (fdiv (Fin 1) scale))).
  cbn [bind broadcast_shapes shape_of].
  eexists; split; [ reflexivity | ].
  split; intros [x | xs];
    cbn [forward inverse bind broadcast_shapes shape_of broadcast_to amap].
  - reflexivity.
  - rewrite lift2_vector_repeat_l. cbn [bind].
    rewrite <- (length_map (fmul scale) xs).
    rewrite lift2_vector_repeat_r, map_map. reflexivity.
  - reflexivity.
  - rewrite lift2_vector_repeat_r. cbn [bind].
    rewrite <- (length_map (fun x => fsub x shift) xs).
    rewrite lift2_vector_repeat_l, map_map. reflexivity.
Qed.

(** C10, as the code has it: for every scalar shift and scale building the
    bijector raises nothing, [forward v] is [scale * v + shift] and
    [inverse v] is [(1 / scale) * (v - shift)], element by element on every
    array [v] of rank 0 or 1, special values included.  As functions of
    real numbers the two formulas are inverse to each other when the scale
    is not [0]; the code evaluates them in floating point, where each
    operation rounds. *)
Theorem scalar_affine_correct (shift scale : float) (v : array) :
  exists b : Bijector,
    scalar_affine (Scalar shift) (Scalar scale) = Some b
    /\ forward b v = Some (amap (fun x => fadd (fmul scale x) shift) v)
    /\ inverse b v
       = Some (amap (fun x => fmul (fdiv (Fin 1) scale) (fsub x shift)) v)
    /\ (forall c s r : R, c <> 0 ->
          1 / c * (c * r + s - s) = r /\ c * (1 / c * (r - s)) + s = r).
Proof.
  destruct (scalar_affine_scalars shift scale) as (b & Hb & Hf & Hi).
  exists b. split; [ exact Hb | ].
  split; [ apply Hf | ].
  split; [ apply Hi | ].
  intros c s r Hc; split; field; exact Hc.
Qed.

(** C10, counterexample, in binary32 arithmetic: with [shift = 1e8] and
    [scale = 1] the value [1] is absorbed by the shift, [forward 1] is
    [1e8], and [inverse (forward 1)] is [0], not [1]. *)
Lemma scalar_affine_round_trip_fails :
  inverse32 (scalar_affine32 (of_Z32 100000000) (of_Z32 1))
    (forward32 (scalar_affine32 (of_Z32 100000000) (of_Z32 1)) (of_Z32 1))
  <> of_Z32 1.
Proof. vm_compute. discriminate. Qed.

(** The same run, step by step. *)
Remark scalar_affine_round_trip_run :
  forward32 (scalar_affine32 (of_Z32 100000000) (of_Z32 1)) (of_Z32 1)
  = of_Z32 100000000
  /\ inverse32 (scalar_affine32 (of_Z32 100000000) (of_Z32 1))
       (of_Z32 100000000)
     = of_Z32 0.
Proof. split; vm_compute; reflexivity. Qed.

(** When the shift is a vector and the value a scalar, [forward]
    broadcasts the value to the shape of the shift: the round trip returns
    the broadcast value. *)
Remark scalar_affine_vector_shift :
  exists b : Bijector,
    scalar_affine (Vector [Fin 0; Fin 0]) (Scalar (Fin 1)) = Some b
    /\ inverse_forward b (Scalar (Fin 5)) = Some (Vector [Fin 5; Fin 5]).
Proof.
  unfold scalar_affine.
  replace (lift2 fdiv (Scalar (Fin 1)) (Scalar (Fin 1)))
    with (Some (Scalar (Fin (1 / 1))))
    by (unfold lift2; simpl; rewrite reqb_false by lra; reflexivity).
  cbn [bind broadcast_shapes shape_of].
  eexists; split; [ reflexivity | ].
  unfold inverse_forward, lift2; simpl.
  replace (1 / 1 * (1 * 5 + 0 + - 0)) with 5 by field. reflexivity.
Qed.

(* ================================================================== *)
(** * Initializers: the weights of [q_batch] *)
(* ================================================================== *)

Lemma fold_left_fadd_fin (l : list R) (acc : R) :
  fold_left fadd (map Fin l) (Fin acc) = Fin (acc + rsum l).
Proof.
  revert acc; induction l as [| x t IH]; intros acc; simpl.
  - f_equal; ring.
  - rewrite IH; f_equal; ring.
Qed.

Lemma fsum_fin (l : list R) : fsum (map Fin l) = Fin (rsum l).
Proof. unfold fsum; rewrite fold_left_fadd_fin; f_equal; ring. Qed.

(* ================================================================== *)
(** * Initializers: the shrink loop of [q_batch_nonnegative] *)
(* ================================================================== *)

Lemma shrink_loop_step (fuel : nat) (alpha : float) (y : list float)
  (max_val : float) (n : nat) :
  shrink_loop (S fuel) alpha y max_val n
  = if Nat.ltb (count_true (alpha_mask y max_val alpha)) n
    then shrink_loop fuel (fmul alpha (Fin (1 / 10))) y max_val n
    else Some (alpha, alpha_mask y max_val alpha).
Proof. reflexivity. Qed.

(** The loop has no cap: it gives no answer within [fuel] iterations
    exactly when fewer than [n] rows pass the filter at each of the first
    [fuel] values of [alpha]. *)
Lemma shrink_loop_none (fuel : nat) (alpha : float) (y : list float)
  (max_val : float) (n : nat) :
  shrink_loop fuel alpha y max_val n = None
  <-> forall k : nat, (k < fuel)%nat ->
        (count_true (alpha_mask y max_val (shrink_alpha alpha k)) < n)%nat.
Proof.
  revert alpha; induction fuel as [| fuel IH]; intros alpha.
  - split; [ intros _ k Hk; lia | reflexivity ].
  - rewrite shrink_loop_step.
    destruct (Nat.ltb_spec (count_true (alpha_mask y max_val alpha)) n)
      as [Hlt | Hge].
    + rewrite IH; split.
      * intros H [| k] Hk; [ exact Hlt | apply H; lia ].
      * intros H k Hk. apply (H (S k)); lia.
    + split; [ discriminate | ].
      intros H. specialize (H 0%nat ltac:(lia)). simpl in H. lia.
Qed.

(** When the loop answers, it answers with the first [alpha] at which at
    least [n] rows pass, and with the mask of that [alpha]. *)
Lemma shrink_loop_some (fuel : nat) (alpha : float) (y : list float)
  (max_val : float) (n : nat) (st : shrink_state) :
  shrink_loop fuel alpha y max_val n = Some st ->
  exists k : nat,
    (k < fuel)%nat
    /\ st = (shrink_alpha alpha k,
             alpha_mask y max_val (shrink_alpha alpha k))
    /\ (n <= count_true (snd st))%nat.
Proof.
  revert alpha; induction fuel as [| fuel IH]; intros alpha.
  - discriminate.
  - rewrite shrink_loop_step.
    destruct (Nat.ltb_spec (count_true (alpha_mask y max_val alpha)) n)
      as [Hlt | Hge].
    + intros H. destruct (IH _ H) as (k & Hk & Hst & Hc).
      exists (S k); repeat split; [ lia | exact Hst | exact Hc ].
    + intros H; inversion H; subst st.
      exists 0%nat; repeat split; [ lia | exact Hge ].
Qed.

(** If at least [n] rows pass at the [k]-th value of [alpha], the loop
    answers within [k + 1] iterations. *)
Lemma shrink_loop_reaches (k : nat) (alpha : float) (y : list float)
  (max_val : float) (n : nat) :
  (n <= count_true (alpha_mask y max_val (shrink_alpha alpha k)))%nat ->
  forall fuel : nat, (k < fuel)%nat ->
    shrink_loop fuel alpha y max_val n <> None.
Proof.
  intros Hk fuel Hf H.
  rewrite shrink_loop_none in H. specialize (H k Hf). lia.
Qed.

Lemma shrink_alpha_fin (a : R) (k : nat) :
  shrink_alpha (Fin a) k = Fin (a * (1 / 10) ^ k).
Proof.
  revert a; induction k as [| k IH]; intros a; simpl.
  - f_equal; ring.
  - rewrite IH; f_equal; ring.
Qed.

(** A positive lower bound of the positive elements of a list. *)
Lemma positive_lower_bound (ys : list R) :
  exists d : R, 0 < d /\ forall y, In y ys -> 0 < y -> d <= y.
Proof.
  induction ys as [| x t (d & Hd & IH)].
  - exists 1; split; [ lra | intros y [] ].
  - destruct (Rlt_dec 0 x) as [Hx | Hx].
    + exists (Rmin d x); split; [ apply Rmin_pos; assumption | ].
      intros y [E | Hin] Hy.
      * subst y. apply Rmin_r.
      * apply Rle_trans with d; [ apply Rmin_l | apply IH; assumption ].
    + exists d; split; [ exact Hd | ].
      intros y [E | Hin] Hy; [ subst y; contradiction | apply IH; assumption ].
Qed.

(** The thresholds [alpha * 10^-k * max_val] tend to [0]. *)
Lemma threshold_small (a m d : R) :
  0 < d -> exists k : nat, a * (1 / 10) ^ k * m <= d.
Proof.
  intros Hd.
  assert (Hc : 0 < d / (Rabs (a * m) + 1)).
  { apply Rdiv_lt_0_compat; [ exact Hd | ].
    generalize (Rabs_pos (a * m)); lra. }
  assert (Hx : Rabs (1 / 10) < 1) by (rewrite Rabs_right; lra).
  destruct (pow_lt_1_zero (1 / 10) Hx _ Hc) as [N HN].
  exists N. specialize (HN N (Nat.le_refl N)).
  assert (Hp : 0 <= (1 / 10) ^ N) by (apply pow_le; lra).
  rewrite Rabs_right in HN by lra.
  assert (Hab := Rabs_pos (a * m)).
  assert (Hle := Rle_abs (a * m)).
  assert (H1 : (1 / 10) ^ N * (Rabs (a * m) + 1) < d).
  { apply Rmult_lt_reg_r with (/ (Rabs (a * m) + 1)).
    - apply Rinv_0_lt_compat; lra.
    - rewrite Rmult_assoc, Rinv_r by lra. lra. }
  nra.
Qed.

(** With a threshold below every positive score, every positive score
    passes the filter. *)
Lemma count_true_positive (ys : list R) (t : R) :
  (forall y, In y ys -> 0 < y -> t <= y) ->
  (count_positive ys
   <= count_true (map (fun s => fge s (Fin t)) (map Fin ys)))%nat.
Proof.
  unfold count_positive, count_true.
  induction ys as [| x l IH]; intros H; cbn [map filter]; [ simpl; lia | ].
  assert (IH' := IH (fun y Hy => H y (or_intror Hy))).
  change (fge (Fin x) (Fin t)) with (rleb t x).
  unfold rltb at 1. destruct (Rlt_dec 0 x) as [Hx | Hx].
  - rewrite rleb_true by (apply H; [ left; reflexivity | exact Hx ]).
    cbn [length]; lia.
  - destruct (rleb t x); cbn [length]; lia.
Qed.

Lemma jnp_max_fin (x : R) (t : list R) :
  exists m : R, jnp_max (map Fin (x :: t)) = Some (Fin m).
Proof.
  simpl. revert x; induction t as [| y t IH]; intros x; simpl.
  - exists x; reflexivity.
  - destruct (rltb x y); apply IH.
Qed.

(* ------------------------------------------------------------------ *)
(** ** Boolean masks *)

Lemma select_In {A : Type} (a : list A) (mask : list bool) (r : A) :
  In r (select a mask) ->
  exists i : nat, nth_error a i = Some r /\ nth_error mask i = Some true.
Proof.
  revert mask; induction a as [| x t IH]; intros [| b m]; simpl;
    try contradiction.
  destruct b; simpl.
  - intros [E | H].
    + subst x. exists 0%nat; split; reflexivity.
    + destruct (IH m H) as (i & Hi & Hm). exists (S i); split; assumption.
  - intros H. destruct (IH m H) as (i & Hi & Hm).
    exists (S i); split; assumption.
Qed.

Lemma nth_error_alpha_mask (y : list float) (max_val alpha : float)
  (i : nat) :
  nth_error (alpha_mask y max_val alpha) i = Some true ->
  exists s : float,
    nth_error y i = Some s /\ fge s (fmul alpha max_val) = true.
Proof.
  unfold alpha_mask. rewrite nth_error_map.
  destruct (nth_error y i) as [s |]; simpl; [ | discriminate ].
  intros H; exists s; split; [ reflexivity | congruence ].
Qed.

Lemma first_choice_contract (Row : Type) :
  choice_contract (@first_choice Row).
Proof.
  intros key a n p rows. unfold first_choice.
  destruct n as [| n].
  - intros H; inversion H; split; [ reflexivity | constructor ].
  - destruct a as [| r a]; [ discriminate | ].
    destruct (Nat.eqb (length p) (length (r :: a))); [ | discriminate ].
    intros H. injection H as H. subst rows. split.
    + exact (repeat_length r (S n)).
    + apply Forall_forall. intros z Hz.
      apply (repeat_spec (S n)) in Hz. subst z. left; reflexivity.
Qed.

(* ================================================================== *)
(** * Initializers: the claims *)
(* ================================================================== *)

Section InitializerProperties.

Variable Key : Type.
Variable Row : Type.
Variable random_choice :
  Key -> list Row -> nat -> list float -> option (list Row).

Hypothesis choice_rows : choice_contract random_choice.

(** C7, as the code has it: [q_batch eta] draws [num_restarts] rows of the
    pool with [jax.random.choice], the weight of row [i] being
    [exp (eta * z [i])] with the standardised score
    [z [i] = (scores [i] - mean) * rsqrt (mean (scores^2) - mean^2 + 1e-5)].
    For [eta = 0] the weight of a row is [1] when its standardised score
    is finite and [nan] when it is infinite or [nan]; the weights are all
    [1] when every standardised score is finite. *)
Theorem q_batch_correct (eta : float) (key : Key) (x : list Row)
  (y : list float) (n : nat) :
  let count := Fin (INR (length y)) in
  let mean := fdiv (fold_left fadd y (Fin 0)) count in
  let mean_of_squares :=
    fdiv (fold_left fadd (map (fun v => fmul v v) y) (Fin 0)) count in
  let rsqrt :=
    fdiv (Fin 1)
      (fsqrt (fadd (fsub mean_of_squares (fmul mean mean))
                (Fin (1 / 100000)))) in
  let z := fun s : float => fmul (fsub s mean) rsqrt in
  q_batch random_choice eta key x y n
  = of_option
      (random_choice key x n (map (fun s => fexp (fmul eta (z s))) y))
  /\ (forall rows : list Row,
        q_batch random_choice eta key x y n = Done rows ->
        length rows = n /\ Forall (fun r => In r x) rows)
  /\ standardize y = map z y
  /\ (forall s : float,
        fexp (fmul (Fin 0) (z s)) = if is_finite (z s) then Fin 1 else NaN)
  /\ (Forall (fun s => is_finite (z s) = true) y ->
      q_batch_weights (Fin 0) y = repeat (Fin 1) (length y)).
Proof.
  intros count mean mean_of_squares rsqrt z.
  assert (Hzero : forall s : float,
             fexp (fmul (Fin 0) (z s))
             = if is_finite (z s) then Fin 1 else NaN).
  { intros s. destruct (z s) as [r | | |]; cbn [fmul fexp is_finite].
    - rewrite Rmult_0_l, exp_0. reflexivity.
    - rewrite inf_of_sign_zero. reflexivity.
    - rewrite Ropp_0, inf_of_sign_zero. reflexivity.
    - reflexivity. }
  assert (Hst : standardize y = map z y)
    by (unfold standardize, fmean, fsum; rewrite length_map; reflexivity).
  split; [ | split; [ | split; [ exact Hst | split; [ exact Hzero | ] ] ] ].
  - unfold q_batch, q_batch_weights. rewrite Hst, map_map. reflexivity.
  - intros rows H. unfold q_batch in H.
    destruct (random_choice key x n (q_batch_weights eta y)) as [rs |] eqn:E;
      [ | discriminate ].
    inversion H; subst rs. exact (choice_rows _ _ _ _ _ E).
  - intros Hfin. unfold q_batch_weights. rewrite Hst, map_map.
    clear Hst. clearbody z. clear rsqrt mean_of_squares mean count.
    induction Hfin as [| s t Hs _ IH]; [ reflexivity | ].
    cbn [map length repeat]. rewrite IH, Hzero, Hs. reflexivity.
Qed.

(** C3: when the initializer of [q_batch_nonnegative] returns, it returns
    exactly [num_restarts] rows; each is a pool row whose score passes the
    filter [scores >= alpha_final * max scores] reached when the loop
    stopped; the rows are drawn by [jax.random.choice] from the passing
    rows with the weights [exp (eta * (scores / max_score - 1))]. *)
Theorem q_batch_nonnegative_correct (fuel : nat) (eta alpha : float)
  (key : Key) (x : list Row) (y : list float) (n : nat) (rows : list Row) :
  q_batch_nonnegative random_choice fuel eta alpha key x y n = Done rows ->
  exists (max_val alpha_final : float),
    let alpha_pos := alpha_mask y max_val alpha_final in
    jnp_max y = Some max_val
    /\ shrink_loop fuel alpha y max_val n = Some (alpha_final, alpha_pos)
    /\ (n <= count_true alpha_pos)%nat
    /\ length rows = n
    /\ Forall
         (fun r => exists (i : nat) (s : float),
              nth_error x i = Some r
              /\ nth_error y i = Some s
              /\ fge s (fmul alpha_final max_val) = true) rows
    /\ random_choice key (select x alpha_pos) n
         (map (fun s => fexp (fmul eta (fsub (fdiv s max_val) (Fin 1))))
            (select y alpha_pos))
       = Some rows.
Proof.
  unfold q_batch_nonnegative. intros H.
  destruct (jnp_max y) as [max_val |]; [ | discriminate ].
  destruct (shrink_loop fuel alpha y max_val n) as [[af m] |] eqn:Hloop;
    [ | discriminate ].
  destruct (shrink_loop_some _ _ _ _ _ _ Hloop) as (k & _ & Hst & Hc).
  inversion Hst; subst af m. clear Hst. simpl snd in Hc.
  set (alpha_final := shrink_alpha alpha k) in *.
  unfold mask_index in H.
  destruct (Nat.eqb (length x) (length (alpha_mask y max_val alpha_final)));
    [ | discriminate ].
  unfold nonnegative_weights in H.
  destruct (random_choice key (select x (alpha_mask y max_val alpha_final)) n
              _) as [rs |] eqn:E; [ | discriminate ].
  inversion H; subst rs.
  destruct (choice_rows _ _ _ _ _ E) as [Hlen Hin].
  exists max_val, alpha_final. cbv zeta.
  repeat split; try assumption; try reflexivity.
  apply Forall_forall. intros r Hr.
  rewrite Forall_forall in Hin. specialize (Hin r Hr).
  destruct (select_In _ _ _ Hin) as (i & Hi & Hm).
  destruct (nth_error_alpha_mask _ _ _ _ Hm) as (s & Hs & Hge).
  exists i, s; repeat split; assumption.
Qed.

(** C2, as the code has it: the shrink loop has no cap and no fallback;
    it stops at the first [alpha * 10^-k] at which at least [num_restarts]
    rows pass the filter.  It does stop when the scores and [alpha] are
    finite and at least [num_restarts] scores are positive. *)
Theorem q_batch_nonnegative_terminates (eta : float) (a : R) (key : Key)
  (x : list Row) (ys : list R) (n : nat) :
  (n <= count_positive ys)%nat ->
  (forall (fuel : nat) (alpha : float) (y : list float) (max_val : float)
          (m : nat),
      shrink_loop fuel alpha y max_val m = None
      <-> forall k : nat, (k < fuel)%nat ->
            (count_true (alpha_mask y max_val (shrink_alpha alpha k))
             < m)%nat)
  /\ exists fuel : nat, forall fuel' : nat, (fuel <= fuel')%nat ->
       q_batch_nonnegative random_choice fuel' eta (Fin a) key x
         (map Fin ys) n <> OutOfFuel.
Proof.
  intros Hn. split; [ intros; apply shrink_loop_none | ].
  destruct ys as [| y0 t].
  - exists 0%nat. intros fuel' _. simpl. discriminate.
  - destruct (jnp_max_fin y0 t) as [m Hm].
    destruct (positive_lower_bound (y0 :: t)) as (d & Hd & Hlow).
    destruct (threshold_small a m d Hd) as [k Hk].
    exists (S k). intros fuel' Hf.
    unfold q_batch_nonnegative. rewrite Hm.
    assert (Hloop : shrink_loop fuel' (Fin a) (map Fin (y0 :: t)) (Fin m) n
                    <> None).
    { apply (shrink_loop_reaches k); [ | lia ].
      rewrite shrink_alpha_fin. unfold alpha_mask.
      cbn [fmul].
      apply Nat.le_trans with (1 := Hn).
      apply count_true_positive.
      intros y Hy Hpos. apply Rle_trans with d; [ exact Hk | ].
      apply Hlow; assumption. }
    destruct (shrink_loop fuel' (Fin a) (map Fin (y0 :: t)) (Fin m) n)
      as [[af mask] |]; [ | contradiction ].
    destruct (mask_index x mask); [ | discriminate ].
    destruct (random_choice _ _ _ _); discriminate.
Qed.

End InitializerProperties.

(* ------------------------------------------------------------------ *)
(** ** Concrete runs *)

Lemma q_batch_correct_witness :
  let y := [Fin 1; Fin 2; Fin 3] in
  let count := Fin (INR (length y)) in
  let mean := fdiv (fold_left fadd y (Fin 0)) count in
  let mean_of_squares :=
    fdiv (fold_left fadd (map (fun v => fmul v v) y) (Fin 0)) count in
  let rsqrt :=
    fdiv (Fin 1)
      (fsqrt (fadd (fsub mean_of_squares (fmul mean mean))
                (Fin (1 / 100000)))) in
  let z := fun s : float => fmul (fsub s mean) rsqrt in
  q_batch first_choice (Fin 0) tt [1; 2; 3]%nat y 2%nat
  = of_option
      (first_choice tt [1; 2; 3]%nat 2%nat
         (map (fun s => fexp (fmul (Fin 0) (z s))) y))
  /\ (forall rows : list nat,
        q_batch first_choice (Fin 0) tt [1; 2; 3]%nat y 2%nat = Done rows ->
        length rows = 2%nat /\ Forall (fun r => In r [1; 2; 3]%nat) rows)
  /\ standardize y = map z y
  /\ (forall s : float,
        fexp (fmul (Fin 0) (z s)) = if is_finite (z s) then Fin 1 else NaN)
  /\ (Forall (fun s => is_finite (z s) = true) y ->
      q_batch_weights (Fin 0) y = repeat (Fin 1) (length y)).
Proof.
  exact (q_batch_correct unit nat first_choice (first_choice_contract nat)
           (Fin 0) tt [1; 2; 3]%nat [Fin 1; Fin 2; Fin 3] 2%nat).
Defined.

(** The weights of [q_batch] at [eta = 0] for the scores [0] and [-inf]
    (the score [log_probability_of_improvement] gives to a point of zero
    variance below [best]): the mean is [-inf], the variance [inf - inf],
    and both weights are [nan]. *)
Lemma q_batch_weights_infinite_score :
  q_batch_weights (Fin 0) [Fin 0; NInf] = [NaN; NaN].
Proof.
  assert (Hn : rltb (INR 2) 0 = false).
  { apply rltb_false. apply pos_INR. }
  assert (Hdn : fdiv NInf (Fin (INR 2)) = NInf)
    by (cbn [fdiv]; rewrite Hn; reflexivity).
  assert (Hdp : fdiv PInf (Fin (INR 2)) = PInf)
    by (cbn [fdiv]; rewrite Hn; reflexivity).
  unfold q_batch_weights, standardize, fmean, fsum.
  cbn [map fold_left length fadd fmul].
  rewrite Hdn, Hdp. reflexivity.
Qed.

(** C7, counterexample: at [eta = 0] the rows need not have equal weights
    that make the draw uniform.  With the scores [0] and [-inf] there is
    no number that is the weight of both rows: both weights are [nan].
    With the finite scores [5793] and [5794] in binary32 arithmetic, the
    variance [mean (y^2) - (mean y)^2] is computed as [-4], its square
    root is [nan], and the products [0 * standardize y [i]] that go into
    [exp] are [nan]. *)
Lemma q_batch_zero_eta_not_uniform :
  (~ exists w : R, q_batch_weights (Fin 0) [Fin 0; NInf] = [Fin w; Fin w])
  /\ map (mul32 (of_Z32 0)) (standardize32 [of_Z32 5793; of_Z32 5794])
     = [SpecFloat.S754_nan; SpecFloat.S754_nan].
Proof.
  split.
  - intros [w H]. rewrite q_batch_weights_infinite_score in H. discriminate.
  - vm_compute. reflexivity.
Qed.

(** The variance of the scores [5793] and [5794] as binary32 arithmetic
    computes it. *)
Remark standardize32_negative_variance :
  sub32
    (mean32 (map (fun v => mul32 v v) [of_Z32 5793; of_Z32 5794]))
    (mul32 (mean32 [of_Z32 5793; of_Z32 5794])
       (mean32 [of_Z32 5793; of_Z32 5794]))
  = of_Z32 (- 4).
Proof. vm_compute. reflexivity. Qed.

(** A run of [q_batch_nonnegative] that stops at once: both scores pass
    the filter [scores >= 1e-4 * 2]. *)
Lemma q_batch_nonnegative_run :
  q_batch_nonnegative first_choice 1%nat (Fin 1) (Fin (1 / 10000)) tt
    [10; 20]%nat [Fin 1; Fin 2] 1%nat
  = Done [10%nat].
Proof.
  unfold q_batch_nonnegative, jnp_max. cbn [fold_left fmax flt].
  rewrite (rltb_true 1 2) by lra.
  unfold shrink_loop, while_loop, shrink_cond, alpha_mask.
  cbn [map fmul fge fle snd].
  rewrite !rleb_true by lra.
  reflexivity.
Qed.

Lemma q_batch_nonnegative_correct_witness :
  exists (max_val alpha_final : float),
    let alpha_pos := alpha_mask [Fin 1; Fin 2] max_val alpha_final in
    jnp_max [Fin 1; Fin 2] = Some max_val
    /\ shrink_loop 1%nat (Fin (1 / 10000)) [Fin 1; Fin 2] max_val 1%nat
       = Some (alpha_final, alpha_pos)
    /\ (1 <= count_true alpha_pos)%nat
    /\ length [10%nat] = 1%nat
    /\ Forall
         (fun r => exists (i : nat) (s : float),
              nth_error [10; 20]%nat i = Some r
              /\ nth_error [Fin 1; Fin 2] i = Some s
              /\ fge s (fmul alpha_final max_val) = true) [10%nat]
    /\ first_choice tt (select [10; 20]%nat alpha_pos) 1%nat
         (map (fun s => fexp (fmul (Fin 1) (fsub (fdiv s max_val) (Fin 1))))
            (select [Fin 1; Fin 2] alpha_pos))
       = Some [10%nat].
Proof.
  exact (q_batch_nonnegative_correct unit nat first_choice
           (first_choice_contract nat) 1%nat (Fin 1) (Fin (1 / 10000)) tt
           [10; 20]%nat [Fin 1; Fin 2] 1%nat [10%nat] q_batch_nonnegative_run).
Defined.

Lemma count_positive_example : (1 <= count_positive [1; 2]%R)%nat.
Proof.
  unfold count_positive; cbn [filter].
  rewrite !rltb_true by lra. simpl; lia.
Qed.

Lemma q_batch_nonnegative_terminates_witness :
  (forall (fuel : nat) (alpha : float) (y : list float) (max_val : float)
          (m : nat),
      shrink_loop fuel alpha y max_val m = None
      <-> forall k : nat, (k < fuel)%nat ->
            (count_true (alpha_mask y max_val (shrink_alpha alpha k))
             < m)%nat)
  /\ exists fuel : nat, forall fuel' : nat, (fuel <= fuel')%nat ->
       q_batch_nonnegative first_choice fuel' (Fin 1) (Fin (1 / 10000)) tt
         [10; 20]%nat (map Fin [1; 2]) 1%nat <> OutOfFuel.
Proof.
  exact (q_batch_nonnegative_terminates unit nat first_choice (Fin 1)
           (1 / 10000) tt [10; 20]%nat [1; 2] 1%nat count_positive_example).
Defined.

Lemma pow_tenth_bounds (k : nat) : 0 < (1 / 10) ^ k <= 1.
Proof.
  induction k as [| k IH]; simpl; lra.
Qed.

(** With the default [alpha = 1e-4], the single score [-1] and one
    restart, no row ever passes the filter
    [scores >= alpha * 10^-k * (-1)]. *)
Lemma q_batch_nonnegative_no_answer (fuel : nat) :
  q_batch_nonnegative first_choice fuel (Fin 1) (Fin (1 / 10000)) tt
    [0%nat] [Fin (- 1)] 1%nat
  = OutOfFuel.
Proof.
  unfold q_batch_nonnegative, jnp_max. cbn [fold_left].
  assert (H : shrink_loop fuel (Fin (1 / 10000)) [Fin (- 1)] (Fin (- 1)) 1%nat
              = None).
  { apply shrink_loop_none. intros k _.
    rewrite shrink_alpha_fin. unfold alpha_mask, count_true.
    cbn [map fmul fge fle].
    destruct (pow_tenth_bounds k) as [H0 H1].
    rewrite rleb_false by nra. simpl; lia. }
  rewrite H. reflexivity.
Qed.

(** C2, counterexample: on that input the loop does not terminate: there
    is no number of iterations after which the initializer has returned
    or raised. *)
Lemma q_batch_nonnegative_diverges :
  ~ exists fuel : nat,
      q_batch_nonnegative first_choice fuel (Fin 1) (Fin (1 / 10000)) tt
        [0%nat] [Fin (- 1)] 1%nat
      <> OutOfFuel.
Proof.
  intros [fuel H]. apply H. apply q_batch_nonnegative_no_answer.
Qed.

(* ================================================================== *)
(** * Optimizers: the shapes of the results *)
(* ================================================================== *)

Lemma argmax_from_lt (l : list float) (best : float) (ibest i : nat) :
  (ibest < i)%nat -> (argmax_from best ibest i l < i + length l)%nat.
Proof.
  revert best ibest i; induction l as [| x t IH]; intros best ibest i H;
    simpl; [ lia | ].
  destruct (is_nan best); [ lia | ].
  destruct (is_nan x || flt best x)%bool.
  - specialize (IH x i (S i) ltac:(lia)); lia.
  - specialize (IH best ibest (S i) ltac:(lia)); lia.
Qed.

Lemma argmax_lt (l : list float) (i : nat) :
  argmax l = Some i -> (i < length l)%nat.
Proof.
  destruct l as [| x t]; [ discriminate | ].
  simpl. intros H; inversion H.
  generalize (argmax_from_lt t x 0%nat 1%nat ltac:(lia)); lia.
Qed.

Lemma argmax_nonempty (l : list float) :
  l <> [] -> exists i : nat, argmax l = Some i.
Proof. destruct l; [ contradiction | intros _; eexists; reflexivity ]. Qed.

Lemma has_shape_app (c c' : CandidateSet) (q q' d : nat) :
  has_shape c q d -> has_shape c' q' d -> has_shape (c ++ c') (q + q') d.
Proof.
  intros [H1 H2] [H3 H4]; split.
  - rewrite length_app; lia.
  - apply Forall_app; split; assumption.
Qed.

Section OptimizerProperties.

Variable Key : Type.
Variable sampler : Bounds -> nat -> Sampler Key.
Variable split : Key -> nat -> list Key.
Variable initializer : BatchInitializer Key.
Variable solver : Solver.

(** The sampler returns [num_samples] candidate sets of [q] points inside
    the [d]-dimensional bounds. *)
Hypothesis sampler_shape :
  forall bounds q key n,
    length (sampler bounds q key n) = n
    /\ Forall (fun c => has_shape c q (length bounds)) (sampler bounds q key n).

Hypothesis split_length : forall key n, length (split key n) = n.

(** The initializer returns [num_restarts] candidate sets of the pool. *)
Hypothesis initializer_rows :
  forall key pool scores n,
    pool <> [] ->
    exists rows,
      initializer key pool scores n = Done rows
      /\ length rows = n
      /\ Forall (fun r => In r pool) rows.

(** The solver refines each restart, keeping its shape, and scores it. *)
Hypothesis solver_shape :
  forall (fn : BatchAcquisition) bounds restarts,
    (forall pool, length (fn pool) = length pool) ->
    length (fst (solver fn bounds restarts)) = length restarts
    /\ length (snd (solver fn bounds restarts)) = length restarts
    /\ forall q d,
         Forall (fun r => has_shape r q d) restarts ->
         Forall (fun r => has_shape r q d) (fst (solver fn bounds restarts)).

Lemma batch_shape (key : Key) (fn : BatchAcquisition) (bounds : Bounds)
  (q num_samples num_restarts : nat) :
  (forall pool, length (fn pool) = length pool) ->
  (0 < num_samples)%nat -> (0 < num_restarts)%nat ->
  exists (c : CandidateSet) (s : float),
    batch sampler initializer solver key fn bounds q num_samples num_restarts
    = Done (c, s)
    /\ has_shape c q (length bounds).
Proof.
  intros Hfn Hs Hr. unfold batch.
  destruct (sampler_shape bounds q key num_samples) as [Hlen Hpool].
  set (pool := sampler bounds q key num_samples) in *.
  assert (Hne : pool <> []).
  { intros E. rewrite E in Hlen. simpl in Hlen. lia. }
  destruct (initializer_rows key pool (fn pool) num_restarts Hne)
    as (rows & Hinit & Hrl & Hin).
  rewrite Hinit.
  destruct (solver_shape fn bounds rows Hfn) as (Hc & Hv & Hsh).
  destruct (solver fn bounds rows) as [candidates values] eqn:Hsol.
  simpl fst in *. simpl snd in *.
  assert (Hvne : values <> []).
  { intros E. rewrite E in Hv. simpl in Hv. lia. }
  destruct (argmax_nonempty values Hvne) as [i Hi].
  rewrite Hi. assert (Hlt := argmax_lt _ _ Hi).
  destruct (nth_error candidates i) as [c |] eqn:Ec;
    [ | apply nth_error_None in Ec; lia ].
  destruct (nth_error values i) as [v |] eqn:Ev;
    [ | apply nth_error_None in Ev; lia ].
  exists c, v; split; [ reflexivity | ].
  assert (Hrows : Forall (fun r => has_shape r q (length bounds)) rows).
  { apply Forall_forall. intros r Hrin.
    rewrite Forall_forall in Hin, Hpool. apply Hpool, Hin, Hrin. }
  specialize (Hsh _ _ Hrows). rewrite Forall_forall in Hsh.
  apply Hsh. eapply nth_error_In; eassumption.
Qed.

Lemma sequential_steps_shape (fn : BatchAcquisition) (bounds : Bounds)
  (num_samples num_restarts : nat) (keys : list Key) (chosen : CandidateSet)
  (scores : list float) (k : nat) :
  (forall pool, length (fn pool) = length pool) ->
  (0 < num_samples)%nat -> (0 < num_restarts)%nat ->
  has_shape chosen k (length bounds) ->
  exists (c : CandidateSet) (ss : list float),
    sequential_steps sampler initializer solver fn bounds num_samples
      num_restarts keys chosen scores = Done (c, ss)
    /\ has_shape c (k + length keys) (length bounds)
    /\ length ss = (length scores + length keys)%nat.
Proof.
  intros Hfn Hs Hr. revert chosen scores k.
  induction keys as [| key keys IH]; intros chosen scores k Hsh.
  - exists chosen, scores; simpl. rewrite !Nat.add_0_r. auto.
  - cbn [sequential_steps].
    assert (Hfn' : forall pool,
               length (fn (map (fun c => chosen ++ c) pool)) = length pool)
      by (intros pool; rewrite Hfn, length_map; reflexivity).
    destruct (batch_shape key (fun pool => fn (map (fun c => chosen ++ c) pool))
                bounds 1 num_samples num_restarts Hfn' Hs Hr)
      as (c & v & Hb & Hc).
    rewrite Hb.
    destruct (IH (chosen ++ c) (scores ++ [v]) (k + 1)%nat
                (has_shape_app _ _ _ _ _ Hsh Hc)) as (c' & ss & Hrun & H1 & H2).
    exists c', ss; split; [ exact Hrun | ].
    rewrite length_app in H2. simpl length in *.
    replace (k + S (length keys))%nat with (k + 1 + length keys)%nat by lia.
    split; [ exact H1 | lia ].
Qed.

(** C5: the batch optimizer returns a candidate set of shape [(q, d)] and
    one score, of shape [()]; the sequential optimizer returns a candidate
    set of shape [(q, d)] and a vector of [q] scores, of shape [(q,)]. *)
Theorem optimizer_shapes (key : Key) (fn : BatchAcquisition)
  (bounds : Bounds) (q num_samples num_restarts : nat) :
  (forall pool, length (fn pool) = length pool) ->
  (0 < num_samples)%nat -> (0 < num_restarts)%nat ->
  (exists (c : CandidateSet) (s : float),
      batch sampler initializer solver key fn bounds q num_samples
        num_restarts = Done (c, s)
      /\ has_shape c q (length bounds)
      /\ shape_scalar s = [])
  /\ (exists (c : CandidateSet) (ss : list float),
        sequential sampler split initializer solver key fn bounds q
          num_samples num_restarts = Done (c, ss)
        /\ has_shape c q (length bounds)
        /\ shape_vector ss = [q]).
Proof.
  intros Hfn Hs Hr; split.
  - destruct (batch_shape key fn bounds q num_samples num_restarts Hfn Hs Hr)
      as (c & s & Hb & Hc).
    exists c, s; repeat split; try assumption; apply Hc.
  - unfold sequential.
    assert (H0 : has_shape [] 0 (length bounds)) by (split; constructor).
    destruct (sequential_steps_shape fn bounds num_samples num_restarts
                (split key q) [] [] 0 Hfn Hs Hr H0) as (c & ss & Hrun & H1 & H2).
    rewrite split_length in H1, H2. simpl in H1, H2.
    exists c, ss; split; [ exact Hrun | ].
    split; [ exact H1 | unfold shape_vector; rewrite H2; reflexivity ].
Qed.

End OptimizerProperties.

(* ------------------------------------------------------------------ *)
(** ** The scenario of the test suite *)

Lemma test_sampler_shape (bounds : Bounds) (q : nat) (key : unit) (n : nat) :
  length (test_sampler bounds q key n) = n
  /\ Forall (fun c => has_shape c q (length bounds))
       (test_sampler bounds q key n).
Proof.
  unfold test_sampler; split; [ apply repeat_length | ].
  apply Forall_forall. intros c Hc. apply repeat_spec in Hc. subst c.
  split; [ apply repeat_length | ].
  apply Forall_forall. intros p Hp. apply repeat_spec in Hp. subst p.
  apply length_map.
Qed.

Lemma test_split_length (key : unit) (n : nat) :
  length (test_split key n) = n.
Proof. apply repeat_length. Qed.

Lemma test_initializer_rows (key : unit) (pool : list CandidateSet)
  (scores : list float) (n : nat) :
  pool <> [] ->
  exists rows,
    test_initializer key pool scores n = Done rows
    /\ length rows = n
    /\ Forall (fun r => In r pool) rows.
Proof.
  intros Hne. unfold test_initializer.
  destruct (first_choice key pool n (repeat (Fin 1) (length pool)))
    as [rows |] eqn:E.
  - exists rows; split; [ reflexivity | ].
    exact (first_choice_contract _ _ _ _ _ _ E).
  - exfalso. unfold first_choice in E.
    destruct n; [ discriminate | ].
    destruct pool as [| r t]; [ contradiction | ].
    rewrite repeat_length, Nat.eqb_refl in E. discriminate.
Qed.

Lemma test_solver_shape (fn : BatchAcquisition) (bounds : Bounds)
  (restarts : list CandidateSet) :
  (forall pool, length (fn pool) = length pool) ->
  length (fst (test_solver fn bounds restarts)) = length restarts
  /\ length (snd (test_solver fn bounds restarts)) = length restarts
  /\ forall q d,
       Forall (fun r => has_shape r q d) restarts ->
       Forall (fun r => has_shape r q d)
         (fst (test_solver fn bounds restarts)).
Proof.
  intros Hfn; unfold test_solver; simpl.
  split; [ reflexivity | split; [ apply Hfn | auto ] ].
Qed.

Lemma test_acqf_length (pool : list CandidateSet) :
  length (test_acqf pool) = length pool.
Proof. apply length_map. Qed.

Lemma optimizer_shapes_witness :
  (exists (c : CandidateSet) (s : float),
      batch test_sampler test_initializer test_solver tt test_acqf
        test_bounds 3%nat 100%nat 10%nat = Done (c, s)
      /\ has_shape c 3%nat 1%nat
      /\ shape_scalar s = [])
  /\ (exists (c : CandidateSet) (ss : list float),
        sequential test_sampler test_split test_initializer test_solver tt
          test_acqf test_bounds 3%nat 100%nat 10%nat = Done (c, ss)
        /\ has_shape c 3%nat 1%nat
        /\ shape_vector ss = [3%nat]).
Proof.
  exact (optimizer_shapes unit test_sampler test_split test_initializer
           test_solver test_sampler_shape test_split_length
           test_initializer_rows test_solver_shape tt test_acqf test_bounds
           3%nat 100%nat 10%nat test_acqf_length (Nat.lt_0_succ 99) (Nat.lt_0_succ 9)).
Defined.

(* ================================================================== *)
(** * Further properties: element-wise operators on arrays *)
(* ================================================================== *)

Lemma lift2_vector_scalar (f : float -> float -> float) (xs : list float)
  (b : float) :
  lift2 f (Vector xs) (Scalar b) = Some (Vector (map (fun x => f x b) xs)).
Proof.
  unfold lift2; cbn [shape_of broadcast_shapes bind broadcast_to].
  rewrite Nat.eqb_refl; cbn [bind].
  rewrite map2_repeat_r; reflexivity.
Qed.

Lemma lift2_vector_vector (f : float -> float -> float) (xs ys : list float) :
  length xs = length ys ->
  lift2 f (Vector xs) (Vector ys) = Some (Vector (map2 f xs ys)).
Proof.
  intros H; unfold lift2; cbn [shape_of broadcast_shapes].
  rewrite H, Nat.eqb_refl; cbn [bind broadcast_to].
  rewrite H, !Nat.eqb_refl; reflexivity.
Qed.

Lemma map2_map_r {A B C : Type} (f : A -> B -> C) (g : A -> B) (l : list A) :
  map2 f l (map g l) = map (fun a => f a (g a)) l.
Proof. induction l as [| a t IH]; simpl; [ | rewrite IH ]; reflexivity. Qed.

Lemma lift2_amap_r (f : float -> float -> float) (g : float -> float)
  (v : array) :
  lift2 f v (amap g v) = Some (amap (fun x => f x (g x)) v).
Proof.
  destruct v as [x | xs]; [ reflexivity | ].
  cbn [amap]. rewrite lift2_vector_vector by (rewrite length_map; reflexivity).
  rewrite map2_map_r; reflexivity.
Qed.

Lemma lift2_array_scalar (f : float -> float -> float) (v : array)
  (b : float) :
  lift2 f v (Scalar b) = Some (amap (fun x => f x b) v).
Proof.
  destruct v as [x | xs]; [ reflexivity | apply lift2_vector_scalar ].
Qed.

Lemma amap_id_on (f : float -> float) (v : array) :
  Forall (fun x => f x = x) (elements v) -> amap f v = v.
Proof.
  destruct v as [x | xs]; cbn [amap elements]; intros H.
  - inversion H; congruence.
  - f_equal. induction H as [| x l Hx _ IH]; simpl; congruence.
Qed.

Lemma amap_id_all (f : float -> float) (v : array) :
  (forall x, f x = x) -> amap f v = v.
Proof.
  intros H; apply amap_id_on, Forall_forall; intros x _; apply H.
Qed.

(* ================================================================== *)
(** * Further properties: the bijectors *)
(* ================================================================== *)

Lemma fadd_zero_r (x : float) : fadd x (Fin 0) = x.
Proof. destruct x as [r | | |]; cbn [fadd]; [ f_equal; ring | | | ]; reflexivity. Qed.

Lemma fsub_zero_r (x : float) : fsub x (Fin 0) = x.
Proof.
  destruct x as [r | | |]; cbn [fsub fneg fadd]; [ f_equal; ring | | | ];
    reflexivity.
Qed.

(** The [shift] bijector with the shift [0] is the [identity] bijector on
    every array, infinite and [nan] elements included. *)
Theorem shift_zero_identity (v : array) :
  forward (shift (Scalar (Fin 0))) v = forward identity v
  /\ inverse (shift (Scalar (Fin 0))) v = inverse identity v.
Proof.
  unfold shift, identity; cbn [forward inverse].
  rewrite !lift2_array_scalar.
  split; f_equal; apply amap_id_all; intros x;
    [ apply fadd_zero_r | apply fsub_zero_r ].
Qed.

(** With an infinite shift the value is lost: the round trip of every
    finite number is [nan]. *)
Theorem shift_infinite_loses_value (r : R) :
  inverse_forward (shift (Scalar PInf)) (Scalar (Fin r)) = Some (Scalar NaN)
  /\ inverse_forward (shift (Scalar NInf)) (Scalar (Fin r)) = Some (Scalar NaN).
Proof. split; reflexivity. Qed.

Lemma fmul_one_l (x : float) : fmul (Fin 1) x = x.
Proof.
  destruct x as [r | | |]; cbn [fmul].
  - f_equal; ring.
  - apply inf_of_sign_pos; lra.
  - apply inf_of_sign_neg; lra.
  - reflexivity.
Qed.

(** [scalar_affine(shift, 1)] is the [shift] bijector. *)
Theorem scalar_affine_unit_scale (s : R) (v : array) :
  exists b : Bijector,
    scalar_affine (Scalar (Fin s)) (Scalar (Fin 1)) = Some b
    /\ forward b v = forward (shift (Scalar (Fin s))) v
    /\ inverse b v = inverse (shift (Scalar (Fin s))) v.
Proof.
  destruct (scalar_affine_scalar s 1 ltac:(lra))
    as (b & Hb & Hfs & Hfv & His & Hiv).
  exists b; split; [ exact Hb | ].
  unfold shift; cbn [forward inverse]. rewrite !lift2_array_scalar.
  split; destruct v as [x | xs]; cbn [amap].
  - rewrite Hfs, fmul_one_l; reflexivity.
  - rewrite Hfv. do 2 f_equal. apply map_ext; intros x.
    rewrite fmul_one_l; reflexivity.
  - rewrite His. replace (1 / 1) with 1 by field.
    rewrite fmul_one_l; reflexivity.
  - rewrite Hiv. do 2 f_equal. apply map_ext; intros x.
    replace (1 / 1) with 1 by field. rewrite fmul_one_l; reflexivity.
Qed.

(** With a scale of [0] nothing is raised: [inv_scale] is [+inf],
    [forward] sends every finite number to the shift, and the round trip
    of every finite number is [nan]. *)
Theorem scalar_affine_zero_scale (s r : R) :
  exists b : Bijector,
    scalar_affine (Scalar (Fin s)) (Scalar (Fin 0)) = Some b
    /\ forward b (Scalar (Fin r)) = Some (Scalar (Fin s))
    /\ inverse_forward b (Scalar (Fin r)) = Some (Scalar NaN).
Proof.
  unfold scalar_affine.
  replace (lift2 fdiv (Scalar (Fin 1)) (Scalar (Fin 0)))
    with (Some (Scalar PInf)).
  2:{ unfold lift2; cbn [shape_of broadcast_shapes bind broadcast_to fdiv].
      rewrite reqb_true by reflexivity.
      rewrite inf_of_sign_pos by lra. reflexivity. }
  cbn [bind broadcast_shapes shape_of].
  eexists; split; [ reflexivity | ].
  unfold inverse_forward.
  cbn [forward inverse bind broadcast_shapes shape_of broadcast_to].
  unfold lift2;
    cbn [shape_of broadcast_shapes bind broadcast_to fmul fadd fsub fneg].
  replace (0 * r + s) with s by ring.
  split; [ reflexivity | ].
  cbn [bind shape_of broadcast_shapes broadcast_to fmul fadd fsub fneg].
  replace (s + - s) with 0 by ring.
  rewrite inf_of_sign_zero. reflexivity.
Qed.

(** [scalar_affine] raises when it is built exactly when the shapes of
    the shift and of the scale cannot be broadcast together. *)
Theorem scalar_affine_raises (s c : list float) :
  scalar_affine (Vector s) (Vector c) = None
  <-> (length s <> length c /\ length s <> 1%nat /\ length c <> 1%nat).
Proof.
  unfold scalar_affine.
  assert (Hinv : exists a, lift2 fdiv (Scalar (Fin 1)) (Vector c) = Some a).
  { unfold lift2; cbn [shape_of broadcast_shapes bind broadcast_to].
    rewrite Nat.eqb_refl. cbn [bind]. eexists; reflexivity. }
  destruct Hinv as [a Ha]. rewrite Ha. cbn [bind shape_of broadcast_shapes].
  destruct (Nat.eqb_spec (length s) (length c)) as [E | E];
    [ cbn [bind]; split; [ discriminate | intros [H _]; contradiction ] | ].
  destruct (Nat.eqb_spec (length s) 1) as [E1 | E1];
    [ cbn [bind]; split; [ discriminate | intros (_ & H & _); contradiction ] | ].
  destruct (Nat.eqb_spec (length c) 1) as [E2 | E2];
    [ cbn [bind]; split; [ discriminate | intros (_ & _ & H); contradiction ] | ].
  cbn [bind]; split; [ intros _; auto | reflexivity ].
Qed.

(* ------------------------------------------------------------------ *)
(** ** Softplus *)

Lemma nn_softplus_fin (r : R) : nn_softplus (Fin r) = Fin (ln (1 + exp r)).
Proof.
  unfold nn_softplus; cbn [fexp fadd].
  apply flog_fin. generalize (exp_pos r); lra.
Qed.

Lemma softplus_inverse_elt_pos (r : R) :
  0 < r -> softplus_inverse_elt (Fin r) = Fin (r + ln (1 - exp (- r))).
Proof.
  intros H. unfold softplus_inverse_elt, fexpm1; cbn [fneg fexp fsub fadd].
  assert (He : exp (- r) < 1).
  { rewrite <- exp_0. apply exp_increasing; lra. }
  rewrite flog_fin by lra. cbn [fadd]. do 2 f_equal. f_equal. ring.
Qed.

Lemma softplus_inverse_elt_zero : softplus_inverse_elt (Fin 0) = NInf.
Proof.
  unfold softplus_inverse_elt, fexpm1; cbn [fneg fexp fsub fadd flog].
  rewrite Ropp_0, exp_0.
  rewrite !rltb_false by lra. reflexivity.
Qed.

Lemma softplus_inverse_elt_neg (r : R) :
  r < 0 -> softplus_inverse_elt (Fin r) = NaN.
Proof.
  intros H. unfold softplus_inverse_elt, fexpm1; cbn [fneg fexp fsub fadd].
  assert (He : 1 < exp (- r)).
  { rewrite <- exp_0. apply exp_increasing; lra. }
  rewrite flog_neg by lra. reflexivity.
Qed.

Lemma ln_softplus_pos (r : R) : 0 < ln (1 + exp r).
Proof.
  rewrite <- ln_1. apply ln_increasing; generalize (exp_pos r); lra.
Qed.

(** The inverse of [softplus]: it is [nan] on every negative number,
    [-inf] at [0], a number not above [v] on a positive number [v], and
    [+inf] at [+inf]; on a vector it acts element by element. *)
Theorem softplus_inverse_domain (r : R) :
  (r < 0 -> inverse softplus (Scalar (Fin r)) = Some (Scalar NaN))
  /\ (0 < r ->
      exists y : R,
        inverse softplus (Scalar (Fin r)) = Some (Scalar (Fin y)) /\ y <= r)
  /\ inverse softplus (Scalar (Fin 0)) = Some (Scalar NInf)
  /\ inverse softplus (Scalar PInf) = Some (Scalar PInf)
  /\ inverse softplus (Scalar NInf) = Some (Scalar NaN)
  /\ (forall xs : list float,
        inverse softplus (Vector xs)
        = Some (Vector (map softplus_inverse_elt xs))).
Proof.
  assert (Hinv : forall v : array,
             inverse softplus v = Some (amap softplus_inverse_elt v)).
  { intros v. unfold softplus; cbn [inverse]. rewrite lift2_amap_r.
    reflexivity. }
  split; [ | split; [ | split; [ | split; [ | split ] ] ] ].
  - intros Hr. rewrite Hinv; cbn [amap].
    rewrite (softplus_inverse_elt_neg r Hr). reflexivity.
  - intros Hr. exists (r + ln (1 - exp (- r))).
    rewrite Hinv; cbn [amap].
    rewrite (softplus_inverse_elt_pos r Hr). split; [ reflexivity | ].
    assert (He : 0 < exp (- r)) by apply exp_pos.
    assert (He1 : exp (- r) < 1).
    { rewrite <- exp_0. apply exp_increasing; lra. }
    assert (Hl : ln (1 - exp (- r)) < 0).
    { rewrite <- ln_1. apply ln_increasing; lra. }
    lra.
  - rewrite Hinv; cbn [amap]. rewrite softplus_inverse_elt_zero. reflexivity.
  - rewrite Hinv; cbn [amap].
    unfold softplus_inverse_elt, fexpm1; cbn [fneg fexp fsub fadd].
    replace (- (0 + - (1))) with 1 by ring.
    rewrite flog_fin by lra. reflexivity.
  - rewrite Hinv; reflexivity.
  - intros xs. rewrite Hinv; reflexivity.
Qed.

(** [softplus] sends every number [x] to a number that is neither
    negative nor below [x]; it sends [+inf] to [+inf], [-inf] to [0] and
    [nan] to [nan]. *)
Theorem softplus_forward_range (r : R) :
  (exists y : R,
     forward softplus (Scalar (Fin r)) = Some (Scalar (Fin y))
     /\ 0 <= y /\ r <= y)
  /\ forward softplus (Scalar PInf) = Some (Scalar PInf)
  /\ forward softplus (Scalar NInf) = Some (Scalar (Fin 0))
  /\ forward softplus (Scalar NaN) = Some (Scalar NaN).
Proof.
  split; [ | split; [ | split ] ].
  - exists (ln (1 + exp r)). split; [ | split ].
    + unfold softplus; cbn [forward amap]. rewrite nn_softplus_fin.
      reflexivity.
    + left; apply ln_softplus_pos.
    + left. rewrite <- (ln_exp r) at 1. apply ln_increasing;
        generalize (exp_pos r); lra.
  - reflexivity.
  - unfold softplus, nn_softplus; cbn [forward amap fexp fadd].
    replace (1 + 0) with 1 by ring.
    rewrite flog_fin by lra. rewrite ln_1. reflexivity.
  - reflexivity.
Qed.

(* ------------------------------------------------------------------ *)
(** ** The affine bijector with vector parameters *)

Lemma lift2_scalar_vector (f : float -> float -> float) (a : float)
  (xs : list float) :
  lift2 f (Scalar a) (Vector xs) = Some (Vector (map (f a) xs)).
Proof.
  unfold lift2; cbn [shape_of broadcast_shapes bind broadcast_to].
  rewrite Nat.eqb_refl; cbn [bind].
  rewrite map2_repeat_l; reflexivity.
Qed.

Lemma broadcast_to_same (xs : list float) (n : nat) :
  length xs = n -> broadcast_to (Vector xs) (Shape1 n) = Some (Vector xs).
Proof. intros H; cbn [broadcast_to]; rewrite H, Nat.eqb_refl; reflexivity. Qed.

Lemma broadcast_shapes_same (n : nat) :
  broadcast_shapes (Shape1 n) (Shape1 n) = Some (Shape1 n).
Proof. cbn [broadcast_shapes]; rewrite Nat.eqb_refl; reflexivity. Qed.

(** [scalar_affine] with a vector of shifts and a vector of scales of the
    same length, on a vector of that length: nothing is raised and each
    element is mapped with its own shift and scale,
    [forward v [i] = scale [i] * v [i] + shift [i]] and
    [inverse v [i] = (1 / scale [i]) * (v [i] - shift [i])]. *)
Theorem scalar_affine_vector_formulas (ss cs xs : list float) :
  length ss = length cs -> length xs = length cs ->
  exists b : Bijector,
    scalar_affine (Vector ss) (Vector cs) = Some b
    /\ forward b (Vector xs)
       = Some (Vector (map2 fadd (map2 fmul cs xs) ss))
    /\ inverse b (Vector xs)
       = Some (Vector (map2 fmul (map (fdiv (Fin 1)) cs) (map2 fsub xs ss))).
Proof.
  intros Hs Hx. unfold scalar_affine.
  rewrite lift2_scalar_vector. cbn [bind shape_of].
  rewrite Hs, broadcast_shapes_same. cbn [bind].
  eexists; split; [ reflexivity | ].
  cbn [forward inverse shape_of].
  rewrite Hx, broadcast_shapes_same. cbn [bind].
  rewrite !broadcast_to_same by (rewrite ?length_map; lia). cbn [bind].
  split.
  - rewrite lift2_vector_vector by lia. cbn [bind].
    apply lift2_vector_vector. rewrite map2_length. lia.
  - rewrite lift2_vector_vector by lia. cbn [bind].
    apply lift2_vector_vector. rewrite map2_length, length_map. lia.
Qed.

Lemma scalar_affine_vector_formulas_witness :
  exists b : Bijector,
    scalar_affine (Vector [Fin 1; Fin 0]) (Vector [Fin 2; Fin (- 3)]) = Some b
    /\ forward b (Vector [Fin 5; NInf])
       = Some (Vector (map2 fadd (map2 fmul [Fin 2; Fin (- 3)] [Fin 5; NInf])
                         [Fin 1; Fin 0]))
    /\ inverse b (Vector [Fin 5; NInf])
       = Some (Vector (map2 fmul (map (fdiv (Fin 1)) [Fin 2; Fin (- 3)])
                         (map2 fsub [Fin 5; NInf] [Fin 1; Fin 0]))).
Proof.
  apply (scalar_affine_vector_formulas [Fin 1; Fin 0] [Fin 2; Fin (- 3)]
           [Fin 5; NInf]); reflexivity.
Defined.

(* ================================================================== *)
(** * Further properties: the acquisition functions *)
(* ================================================================== *)

Lemma erf_0 : erf 0 = 0.
Proof. unfold erf. rewrite RiemannInt_P9. ring. Qed.

Lemma erf_nonpos (x : R) : x <= 0 -> erf x <= 0.
Proof.
  intros Hx. unfold erf.
  rewrite (RiemannInt_P8 (gauss_integrable 0 x) (gauss_integrable x 0)).
  assert (H := @RiemannInt_const_bound gauss x 0 0 1 (gauss_integrable x 0) Hx
                 (fun t _ => gauss_le_1 t)).
  assert (Hp : 0 < 2 / sqrt PI).
  { apply Rdiv_lt_0_compat; [ lra | ].
    apply sqrt_lt_R0. apply PI_RGT_0. }
  nra.
Qed.

Lemma Phi_0 : Phi 0 = / 2.
Proof.
  unfold Phi, erfc.
  replace (- 0 / sqrt 2) with 0
    by (field; generalize sqrt2_pos; lra).
  rewrite erf_0. field.
Qed.

Lemma Phi_ge_half (z : R) : 0 <= z -> / 2 <= Phi z.
Proof.
  intros Hz. unfold Phi, erfc.
  assert (H2 := sqrt2_pos).
  assert (Hneg : - z / sqrt 2 <= 0).
  { unfold Rdiv. assert (0 < / sqrt 2) by (apply Rinv_0_lt_compat; lra).
    nra. }
  generalize (erf_nonpos _ Hneg); lra.
Qed.

Lemma fsqrt_fin_inv (v : float) (s : R) :
  fsqrt v = Fin s -> exists c : R, v = Fin c /\ 0 <= c /\ s = sqrt c.
Proof.
  destruct v as [c | | |]; cbn [fsqrt]; try discriminate.
  unfold rltb. destruct (Rlt_dec c 0) as [H | H]; [ discriminate | ].
  intros E; inversion E. exists c; repeat split; lra.
Qed.

Lemma scale_of_nonneg (cov : list (list float)) (i : nat) (s : R) :
  nth_error (scale_of cov) i = Some (Fin s) -> 0 <= s.
Proof.
  intros H. apply scale_of_defined in H. symmetry in H.
  destruct (fsqrt_fin_inv _ _ H) as (c & _ & Hc & ->). apply sqrt_pos.
Qed.

(** Each acquisition returns one score per candidate point: for a process
    with a mean vector of length [q] and a [(q, q)] covariance, the result
    has length [q]. *)
Theorem acquisition_lengths (Candidates : Type)
  (process : Process Candidates) (x : Candidates) (best beta : float)
  (loc : list float) (cov : list (list float)) :
  process x = (loc, cov) ->
  length cov = length loc ->
  length (log_probability_of_improvement best process x) = length loc
  /\ length (log_expected_improvement best process x) = length loc
  /\ length (upper_confidence_bound beta process x) = length loc.
Proof.
  intros Hp Hl.
  assert (Hs : length (scale_of cov) = length loc).
  { unfold scale_of, compose, diag. rewrite !length_map, length_seq.
    exact Hl. }
  unfold log_probability_of_improvement, log_expected_improvement,
    upper_confidence_bound, scale_improvement; rewrite Hp.
  rewrite !length_map, !map2_length, !length_map, Hs. lia.
Qed.

Lemma acquisition_lengths_witness :
  length (log_probability_of_improvement (Fin 0)
            (fun _ : unit => ([Fin 1; Fin 2], [[Fin 1; Fin 0]; [Fin 0; Fin 1]]))
            tt) = length [Fin 1; Fin 2]
  /\ length (log_expected_improvement (Fin 0)
               (fun _ : unit =>
                  ([Fin 1; Fin 2], [[Fin 1; Fin 0]; [Fin 0; Fin 1]])) tt)
     = length [Fin 1; Fin 2]
  /\ length (upper_confidence_bound (Fin 2)
               (fun _ : unit =>
                  ([Fin 1; Fin 2], [[Fin 1; Fin 0]; [Fin 0; Fin 1]])) tt)
     = length [Fin 1; Fin 2].
Proof.
  exact (acquisition_lengths unit
           (fun _ : unit => ([Fin 1; Fin 2], [[Fin 1; Fin 0]; [Fin 0; Fin 1]]))
           tt (Fin 0) (Fin 2) [Fin 1; Fin 2] [[Fin 1; Fin 0]; [Fin 0; Fin 1]]
           eq_refl eq_refl).
Defined.

Lemma nth_error_upper_confidence_bound (Candidates : Type)
  (process : Process Candidates) (x : Candidates) (beta l s : float)
  (loc : list float) (cov : list (list float)) (i : nat) :
  process x = (loc, cov) ->
  nth_error loc i = Some l ->
  nth_error (scale_of cov) i = Some s ->
  nth_error (upper_confidence_bound beta process x) i
  = Some (fadd l (fmul (fsqrt beta) s)).
Proof.
  intros Hp Hl Hs. unfold upper_confidence_bound; rewrite Hp.
  apply nth_error_map2; [ exact Hl | ].
  rewrite nth_error_map, Hs; reflexivity.
Qed.

(** The upper confidence bound at a finite point is
    [loc + sqrt beta * scale]; it is at least the mean and does not
    decrease when [beta] grows. *)
Theorem upper_confidence_bound_monotone (Candidates : Type)
  (process : Process Candidates) (x : Candidates) (beta1 beta2 l s : R)
  (loc : list float) (cov : list (list float)) (i : nat) :
  process x = (loc, cov) ->
  nth_error loc i = Some (Fin l) ->
  nth_error (scale_of cov) i = Some (Fin s) ->
  0 <= beta1 <= beta2 ->
  nth_error (upper_confidence_bound (Fin beta1) process x) i
  = Some (Fin (l + sqrt beta1 * s))
  /\ nth_error (upper_confidence_bound (Fin beta2) process x) i
     = Some (Fin (l + sqrt beta2 * s))
  /\ l <= l + sqrt beta1 * s <= l + sqrt beta2 * s.
Proof.
  intros Hp Hl Hs [H1 H2].
  assert (Hs0 := scale_of_nonneg _ _ _ Hs).
  rewrite !(nth_error_upper_confidence_bound _ _ _ _ _ _ _ _ _ Hp Hl Hs).
  rewrite !fsqrt_fin by lra. cbn [fmul fadd].
  split; [ reflexivity | split; [ reflexivity | ] ].
  assert (Hb1 := sqrt_pos beta1).
  assert (Hb : sqrt beta1 <= sqrt beta2) by (apply sqrt_le_1_alt; exact H2).
  split; nra.
Qed.

Lemma upper_confidence_bound_monotone_witness :
  nth_error
    (upper_confidence_bound (Fin 1) (fun _ : unit => ([Fin 3], [[Fin 4]])) tt)
    0 = Some (Fin (3 + sqrt 1 * sqrt 4))
  /\ nth_error
       (upper_confidence_bound (Fin 2) (fun _ : unit => ([Fin 3], [[Fin 4]]))
          tt) 0 = Some (Fin (3 + sqrt 2 * sqrt 4))
  /\ 3 <= 3 + sqrt 1 * sqrt 4 <= 3 + sqrt 2 * sqrt 4.
Proof.
  apply (upper_confidence_bound_monotone unit
           (fun _ : unit => ([Fin 3], [[Fin 4]])) tt 1 2 3 (sqrt 4)
           [Fin 3] [[Fin 4]] 0).
  - reflexivity.
  - reflexivity.
  - unfold scale_of, compose, diag; simpl.
    rewrite rltb_false by lra. reflexivity.
  - lra.
Defined.

(** With a negative [beta] the square root is [nan] and so is every score
    of the upper confidence bound. *)
Theorem upper_confidence_bound_negative_beta (Candidates : Type)
  (process : Process Candidates) (x : Candidates) (beta : R) (l s : float)
  (loc : list float) (cov : list (list float)) (i : nat) :
  process x = (loc, cov) ->
  nth_error loc i = Some l ->
  nth_error (scale_of cov) i = Some s ->
  beta < 0 ->
  nth_error (upper_confidence_bound (Fin beta) process x) i = Some NaN.
Proof.
  intros Hp Hl Hs Hb.
  rewrite (nth_error_upper_confidence_bound _ _ _ _ _ _ _ _ _ Hp Hl Hs).
  cbn [fsqrt]. rewrite rltb_true by lra.
  destruct l, s; reflexivity.
Qed.

Lemma upper_confidence_bound_negative_beta_witness :
  nth_error
    (upper_confidence_bound (Fin (- 1))
       (fun _ : unit => ([Fin 3], [[Fin 4]])) tt) 0 = Some NaN.
Proof.
  apply (upper_confidence_bound_negative_beta unit
           (fun _ : unit => ([Fin 3], [[Fin 4]])) tt (- 1) (Fin 3)
           (Fin (sqrt 4)) [Fin 3] [[Fin 4]] 0).
  - reflexivity.
  - reflexivity.
  - unfold scale_of, compose, diag; simpl.
    rewrite rltb_false by lra. reflexivity.
  - lra.
Defined.

Lemma nth_error_log_expected_improvement (Candidates : Type)
  (process : Process Candidates) (x : Candidates) (best l s : float)
  (loc : list float) (cov : list (list float)) (i : nat) :
  process x = (loc, cov) ->
  nth_error loc i = Some l ->
  nth_error (scale_of cov) i = Some s ->
  nth_error (log_expected_improvement best process x) i
  = Some (log_ei (fdiv (fsub l best) s)).
Proof.
  intros Hp Hl Hs; unfold log_expected_improvement; rewrite Hp.
  rewrite nth_error_map.
  rewrite (nth_error_scale_improvement _ _ best _ _ _ Hl Hs); reflexivity.
Qed.

Lemma log_ei_nan : log_ei NaN = NaN.
Proof. reflexivity. Qed.

(** At a candidate of scale [0] with a finite mean, the score of
    [log_expected_improvement] is [+inf] when [loc > best], [-inf] when
    [loc < best] and [nan] when [loc = best]. *)
Theorem log_expected_improvement_zero_scale (Candidates : Type)
  (process : Process Candidates) (x : Candidates) (best l : R)
  (loc : list float) (cov : list (list float)) (i : nat) :
  process x = (loc, cov) ->
  nth_error loc i = Some (Fin l) ->
  nth_error (scale_of cov) i = Some (Fin 0) ->
  exists v : float,
    nth_error (log_expected_improvement (Fin best) process x) i = Some v
    /\ (best < l -> v = PInf)
    /\ (l < best -> v = NInf)
    /\ (l = best -> v = NaN).
Proof.
  intros Hp Hl Hs.
  rewrite (nth_error_log_expected_improvement _ _ _ _ _ _ _ _ _ Hp Hl Hs).
  eexists; split; [ reflexivity | ].
  cbn [fsub fneg fadd fdiv]. rewrite reqb_true by reflexivity.
  split; [ | split ]; intros H.
  - rewrite inf_of_sign_pos by lra. apply log_ei_pinf.
  - rewrite inf_of_sign_neg by lra. apply log_ei_ninf.
  - subst l. replace (best + - best) with 0 by ring.
    rewrite inf_of_sign_zero. apply log_ei_nan.
Qed.

Lemma log_expected_improvement_zero_scale_witness :
  exists v : float,
    nth_error
      (log_expected_improvement (Fin 0)
         (fun _ : unit => ([Fin 1], [[Fin 0]])) tt) 0 = Some v
    /\ (0 < 1 -> v = PInf)
    /\ (1 < 0 -> v = NInf)
    /\ (1 = 0 -> v = NaN).
Proof.
  apply (log_expected_improvement_zero_scale unit
           (fun _ : unit => ([Fin 1], [[Fin 0]])) tt 0 1
           [Fin 1] [[Fin 0]] 0).
  - reflexivity.
  - reflexivity.
  - unfold scale_of, compose, diag; simpl.
    rewrite rltb_false by lra. rewrite sqrt_0. reflexivity.
Defined.

Lemma log_ei_nonneg (z : R) :
  0 <= z ->
  log_ei (Fin z) = Fin (ln (phi z + z * Phi z)) /\ 0 < phi z + z * Phi z.
Proof.
  intros Hz.
  assert (Hpos : 0 < phi z + z * Phi z).
  { generalize (phi_pos z) (Phi_ge_half z Hz); nra. }
  split; [ | exact Hpos ].
  rewrite log_ei_upper_regime by (cbn; apply rltb_true; lra).
  cbn [norm_pdf norm_cdf fmul fadd]. apply flog_fin. exact Hpos.
Qed.

(** Where the mean is at least [best] and the scale is positive, the
    score of [log_expected_improvement] is the finite number
    [log (phi z + z * Phi z)], [z = (loc - best) / scale]; where the mean
    equals [best] it is [- log (sqrt (2 pi))], whatever the scale. *)
Theorem log_expected_improvement_nonneg (Candidates : Type)
  (process : Process Candidates) (x : Candidates) (best l s : R)
  (loc : list float) (cov : list (list float)) (i : nat) :
  process x = (loc, cov) ->
  nth_error loc i = Some (Fin l) ->
  nth_error (scale_of cov) i = Some (Fin s) ->
  0 < s -> best <= l ->
  let z := (l - best) / s in
  nth_error (log_expected_improvement (Fin best) process x) i
  = Some (Fin (ln (phi z + z * Phi z)))
  /\ 0 < phi z + z * Phi z
  /\ (l = best -> ln (phi z + z * Phi z) = - ln (sqrt (2 * PI))).
Proof.
  intros Hp Hl Hs Hpos Hle z.
  assert (Hz : 0 <= z).
  { unfold z, Rdiv. assert (0 < / s) by (apply Rinv_0_lt_compat; exact Hpos).
    nra. }
  destruct (log_ei_nonneg z Hz) as [Hei Harg].
  rewrite (nth_error_log_expected_improvement _ _ _ _ _ _ _ _ _ Hp Hl Hs).
  cbn [fsub fneg fadd]. rewrite fdiv_fin by lra.
  change ((l + - best) / s) with z. rewrite Hei.
  split; [ reflexivity | split; [ exact Harg | ] ].
  intros E. assert (Hz0 : z = 0) by (unfold z; subst l; field; lra).
  rewrite Hz0, Rmult_0_l, Rplus_0_r, ln_phi. lra.
Qed.

Lemma log_expected_improvement_nonneg_witness :
  let z := (2 - 0) / sqrt 4 in
  nth_error
    (log_expected_improvement (Fin 0)
       (fun _ : unit => ([Fin 2], [[Fin 4]])) tt) 0
  = Some (Fin (ln (phi z + z * Phi z)))
  /\ 0 < phi z + z * Phi z
  /\ (2 = 0 -> ln (phi z + z * Phi z) = - ln (sqrt (2 * PI))).
Proof.
  apply (log_expected_improvement_nonneg unit
           (fun _ : unit => ([Fin 2], [[Fin 4]])) tt 0 2 (sqrt 4)
           [Fin 2] [[Fin 4]] 0).
  - reflexivity.
  - reflexivity.
  - unfold scale_of, compose, diag; simpl.
    rewrite rltb_false by lra. reflexivity.
  - apply sqrt_lt_R0; lra.
  - lra.
Defined.

Lemma norm_logcdf_improvement (best l s : R) :
  0 < s ->
  norm_logcdf (fdiv (fsub (Fin l) (Fin best)) (Fin s))
  = Fin (ln (Phi ((l - best) / s))).
Proof.
  intros Hs. cbn [fsub fneg fadd]. rewrite fdiv_fin by lra. reflexivity.
Qed.

(** Where the mean is at least [best] and the scale is positive, the
    score of [log_probability_of_improvement] is at least [- log 2]; it is
    [- log 2] where the mean equals [best]. *)
Theorem log_probability_of_improvement_at_least_half (Candidates : Type)
  (process : Process Candidates) (x : Candidates) (best l s : R)
  (loc : list float) (cov : list (list float)) (i : nat) :
  process x = (loc, cov) ->
  nth_error loc i = Some (Fin l) ->
  nth_error (scale_of cov) i = Some (Fin s) ->
  0 < s -> best <= l ->
  exists v : R,
    nth_error (log_probability_of_improvement (Fin best) process x) i
    = Some (Fin v)
    /\ - ln 2 <= v
    /\ (l = best -> v = - ln 2).
Proof.
  intros Hp Hl Hs Hpos Hle.
  rewrite (nth_error_log_probability_of_improvement _ _ _ _ _ _ _ _ _
             Hp Hl Hs).
  rewrite (norm_logcdf_improvement best l s Hpos).
  eexists; split; [ reflexivity | ].
  assert (H0 : 0 <= (l - best) / s).
  { unfold Rdiv. assert (0 < / s) by (apply Rinv_0_lt_compat; exact Hpos).
    nra. }
  assert (Hh := Phi_ge_half _ H0).
  assert (Hln : ln (/ 2) = - ln 2) by (rewrite ln_Rinv; lra).
  split.
  - rewrite <- Hln. destruct Hh as [Hh | Hh].
    + left. apply ln_increasing; lra.
    + rewrite <- Hh. lra.
  - intros E. replace ((l - best) / s) with 0 by (subst l; field; lra).
    rewrite Phi_0. exact Hln.
Qed.

Lemma log_probability_of_improvement_at_least_half_witness :
  exists v : R,
    nth_error
      (log_probability_of_improvement (Fin 0)
         (fun _ : unit => ([Fin 2], [[Fin 4]])) tt) 0 = Some (Fin v)
    /\ - ln 2 <= v
    /\ (2 = 0 -> v = - ln 2).
Proof.
  apply (log_probability_of_improvement_at_least_half unit
           (fun _ : unit => ([Fin 2], [[Fin 4]])) tt 0 2 (sqrt 4)
           [Fin 2] [[Fin 4]] 0).
  - reflexivity.
  - reflexivity.
  - unfold scale_of, compose, diag; simpl.
    rewrite rltb_false by lra. reflexivity.
  - apply sqrt_lt_R0; lra.
  - lra.
Defined.

(* ================================================================== *)
(** * Further properties: the weights of the initializers *)
(* ================================================================== *)

Lemma fold_left_fadd_nan (l : list float) : fold_left fadd l NaN = NaN.
Proof. induction l as [| x t IH]; [ reflexivity | exact IH ]. Qed.

Lemma fsum_nan (l : list float) : In NaN l -> fsum l = NaN.
Proof.
  unfold fsum. generalize (Fin 0).
  induction l as [| x t IH]; intros acc H; [ destruct H | ].
  destruct H as [E | H].
  - subst x. cbn [fold_left].
    replace (fadd acc NaN) with NaN by (destruct acc; reflexivity).
    apply fold_left_fadd_nan.
  - cbn [fold_left]. apply IH; exact H.
Qed.

(** One [nan] score makes every weight of [q_batch] [nan]. *)
Theorem q_batch_weights_nan (eta : float) (y : list float) :
  In NaN y ->
  q_batch_weights eta y = repeat NaN (length y).
Proof.
  intros H. unfold q_batch_weights, standardize.
  assert (Hm : fmean y = NaN)
    by (unfold fmean; rewrite (fsum_nan y H); reflexivity).
  rewrite Hm, map_map. clear H Hm.
  match goal with
  | |- map (fun x => fexp (fmul eta (fmul (fsub x NaN) ?w))) y = _ =>
      generalize w
  end.
  intros w.
  induction y as [| v t IH]; [ reflexivity | ].
  cbn [map length repeat]. rewrite IH. f_equal.
  replace (fsub v NaN) with NaN by (destruct v; reflexivity).
  cbn [fmul]. destruct eta; reflexivity.
Qed.

Lemma q_batch_weights_nan_witness :
  q_batch_weights (Fin 1) [Fin 1; NaN; Fin 3]
  = repeat NaN (length [Fin 1; NaN; Fin 3]).
Proof.
  apply (q_batch_weights_nan (Fin 1) [Fin 1; NaN; Fin 3]).
  right; left; reflexivity.
Defined.

(* ================================================================== *)
(** * Further properties: [q_batch_nonnegative] *)
(* ================================================================== *)

Lemma fold_left_fmax_fin (t : list R) (a : R) :
  exists M : R,
    fold_left fmax (map Fin t) (Fin a) = Fin M
    /\ a <= M
    /\ (forall y, In y t -> y <= M)
    /\ (M = a \/ In M t).
Proof.
  revert a; induction t as [| y t IH]; intros a; cbn [map fold_left].
  - exists a; repeat split; [ lra | intros y [] | left; reflexivity ].
  - cbn [fmax flt]. unfold rltb. destruct (Rlt_dec a y) as [H | H].
    + destruct (IH y) as (M & HM & Hle & Hall & Hin).
      exists M; repeat split; [ exact HM | lra | | ].
      * intros z [E | Hz]; [ subst z; exact Hle | apply Hall; exact Hz ].
      * right. destruct Hin as [E | Hin]; [ left; congruence | right; exact Hin ].
    + destruct (IH a) as (M & HM & Hle & Hall & Hin).
      exists M; repeat split; [ exact HM | exact Hle | | ].
      * intros z [E | Hz]; [ subst z; lra | apply Hall; exact Hz ].
      * destruct Hin as [E | Hin]; [ left; exact E | right; right; exact Hin ].
Qed.

(** [jnp.max] of finite scores is one of the scores and bounds them all. *)
Lemma jnp_max_is_max (ys : list R) (M : R) :
  jnp_max (map Fin ys) = Some (Fin M) ->
  In M ys /\ forall y, In y ys -> y <= M.
Proof.
  destruct ys as [| a t]; [ discriminate | ].
  cbn [map jnp_max]. destruct (fold_left_fmax_fin t a) as (M' & HM & Hle & Hall & Hin).
  rewrite HM. intros E; inversion E; subst M'. split.
  - destruct Hin as [-> | Hin]; [ left; reflexivity | right; exact Hin ].
  - intros y [<- | Hy]; [ exact Hle | apply Hall; exact Hy ].
Qed.

Lemma select_incl {A : Type} (a : list A) (mask : list bool) (r : A) :
  In r (select a mask) -> In r a.
Proof.
  revert mask; induction a as [| x t IH]; intros [| b m]; cbn [select];
    try contradiction.
  destruct b; [ intros [E | H]; [ left; exact E | right; eapply IH; exact H ]
              | intros H; right; eapply IH; exact H ].
Qed.

(** With finite scores of positive maximum and a temperature [eta >= 0],
    every weight [q_batch_nonnegative] hands to [random.choice] is a
    number between [0] and [1], and the weight of a row of maximal score
    is [1]. *)
Theorem nonnegative_weights_range (eta M : R) (ys : list R)
  (mask : list bool) :
  jnp_max (map Fin ys) = Some (Fin M) ->
  0 < M -> 0 <= eta ->
  Forall (fun w => exists r : R, w = Fin r /\ 0 <= r <= 1)
    (nonnegative_weights (Fin eta) (Fin M) (select (map Fin ys) mask))
  /\ nonnegative_weights (Fin eta) (Fin M) [Fin M] = [Fin 1].
Proof.
  intros Hmax HM Heta. destruct (jnp_max_is_max _ _ Hmax) as [_ Hall].
  split.
  - apply Forall_forall. intros w Hw. unfold nonnegative_weights in Hw.
    apply in_map_iff in Hw. destruct Hw as (s & <- & Hs).
    apply select_incl in Hs. apply in_map_iff in Hs.
    destruct Hs as (y & <- & Hy).
    rewrite fdiv_fin by lra. cbn [fsub fneg fadd fmul fexp].
    eexists; split; [ reflexivity | ].
    split; [ left; apply exp_pos | ].
    assert (Hy1 : y / M <= 1).
    { apply Rmult_le_reg_r with M; [ exact HM | ].
      unfold Rdiv. rewrite Rmult_assoc, Rinv_l by lra.
      generalize (Hall y Hy); lra. }
    assert (Hneg : eta * (y / M + - (1)) <= 0) by nra.
    destruct Hneg as [Hneg | Hneg].
    + assert (Hi := exp_increasing _ _ Hneg). rewrite exp_0 in Hi. lra.
    + rewrite Hneg, exp_0. lra.
  - unfold nonnegative_weights; cbn [map].
    rewrite fdiv_fin by lra. cbn [fsub fneg fadd fmul fexp].
    do 2 f_equal. replace (eta * (M / M + - (1))) with 0 by (field; lra).
    apply exp_0.
Qed.

Lemma jnp_max_example : jnp_max (map Fin [1; 3; 2]) = Some (Fin 3).
Proof.
  cbn [map jnp_max fold_left fmax flt].
  rewrite (rltb_true 1 3) by lra. cbn [fold_left fmax flt].
  rewrite (rltb_false 3 2) by lra. reflexivity.
Qed.

Lemma nonnegative_weights_range_witness :
  Forall (fun w => exists r : R, w = Fin r /\ 0 <= r <= 1)
    (nonnegative_weights (Fin 1) (Fin 3)
       (select (map Fin [1; 3; 2]) [true; true; false]))
  /\ nonnegative_weights (Fin 1) (Fin 3) [Fin 3] = [Fin 1].
Proof.
  apply (nonnegative_weights_range 1 3 [1; 3; 2] [true; true; false]).
  - exact jnp_max_example.
  - lra.
  - lra.
Defined.

(** When the largest score is [0], every row that passes the filter has
    the score [0] and its weight is [0 / 0 - 1], that is [nan]: all the
    weights handed to [random.choice] are [nan]. *)
Theorem nonnegative_weights_zero_max (eta : float) (a : R) (k : nat)
  (ys : list R) :
  jnp_max (map Fin ys) = Some (Fin 0) ->
  Forall (fun w => w = NaN)
    (nonnegative_weights eta (Fin 0)
       (select (map Fin ys)
          (alpha_mask (map Fin ys) (Fin 0) (shrink_alpha (Fin a) k)))).
Proof.
  intros Hmax. destruct (jnp_max_is_max _ _ Hmax) as [_ Hall].
  rewrite shrink_alpha_fin. unfold alpha_mask. cbn [fmul].
  set (t := a * (1 / 10) ^ k * 0).
  assert (Ht : t = 0) by (unfold t; ring).
  clearbody t. clear Hmax.
  induction ys as [| y l IH]; [ constructor | ].
  cbn [map select].
  assert (IH' := IH (fun z Hz => Hall z (or_intror Hz))).
  change (fge (Fin y) (Fin t)) with (rleb t y).
  unfold rleb. destruct (Rle_dec t y) as [H | H]; [ | exact IH' ].
  unfold nonnegative_weights in *. cbn [map]. constructor; [ | exact IH' ].
  assert (Hy : y = 0) by (generalize (Hall y (or_introl eq_refl)); lra).
  subst y. cbn [fdiv]. rewrite reqb_true by reflexivity.
  rewrite inf_of_sign_zero. cbn [fsub fneg fadd fmul].
  destruct eta; reflexivity.
Qed.

Lemma nonnegative_weights_zero_max_witness :
  Forall (fun w => w = NaN)
    (nonnegative_weights (Fin 1) (Fin 0)
       (select (map Fin [- 1; 0])
          (alpha_mask (map Fin [- 1; 0]) (Fin 0)
             (shrink_alpha (Fin (1 / 10000)) 0)))).
Proof.
  apply (nonnegative_weights_zero_max (Fin 1) (1 / 10000) 0 [- 1; 0]).
  cbn [map jnp_max fold_left fmax flt].
  rewrite (rltb_true (- 1) 0) by lra. reflexivity.
Defined.

Lemma alpha_mask_length (y : list float) (max_val alpha : float) :
  length (alpha_mask y max_val alpha) = length y.
Proof. apply length_map. Qed.

Lemma count_true_le_length (m : list bool) : (count_true m <= length m)%nat.
Proof. unfold count_true. apply filter_length_le. Qed.

Lemma count_true_all_false (m : list bool) :
  Forall (fun b => b = false) m -> count_true m = 0%nat.
Proof.
  unfold count_true. induction 1 as [| b l Hb _ IH]; [ reflexivity | ].
  subst b. exact IH.
Qed.

(** The initializer of [q_batch_nonnegative] never returns rows when the
    pool and the scores have different lengths (the boolean mask cannot
    index the pool), and raises at once when there is no score. *)
Theorem q_batch_nonnegative_raises (Key Row : Type)
  (random_choice : Key -> list Row -> nat -> list float -> option (list Row))
  (fuel : nat) (eta alpha : float) (key : Key) (x : list Row)
  (y : list float) (n : nat) :
  length x <> length y ->
  (forall rows : list Row,
      q_batch_nonnegative random_choice fuel eta alpha key x y n <> Done rows)
  /\ q_batch_nonnegative random_choice fuel eta alpha key x [] n = Raised.
Proof.
  intros Hlen; split; [ | reflexivity ].
  intros rows. unfold q_batch_nonnegative.
  destruct (jnp_max y) as [max_val |]; [ | discriminate ].
  destruct (shrink_loop fuel alpha y max_val n) as [[af m] |] eqn:Hloop;
    [ | discriminate ].
  destruct (shrink_loop_some _ _ _ _ _ _ Hloop) as (k & _ & Hst & _).
  inversion Hst; subst af m. unfold mask_index.
  rewrite alpha_mask_length.
  destruct (Nat.eqb_spec (length x) (length y)); [ contradiction | discriminate ].
Qed.

Lemma q_batch_nonnegative_raises_witness :
  (forall rows : list nat,
      q_batch_nonnegative first_choice 3%nat (Fin 1) (Fin (1 / 10000)) tt
        [7%nat] [Fin 1; Fin 2] 1%nat <> Done rows)
  /\ q_batch_nonnegative first_choice 3%nat (Fin 1) (Fin (1 / 10000)) tt
       [7%nat] [] 1%nat = Raised.
Proof.
  apply (q_batch_nonnegative_raises unit nat first_choice 3%nat (Fin 1)
           (Fin (1 / 10000)) tt [7%nat] [Fin 1; Fin 2] 1%nat).
  simpl; lia.
Defined.

Lemma shrink_loop_first (fuel : nat) (alpha : float) (y : list float)
  (max_val : float) (n : nat) (st : shrink_state) :
  shrink_loop fuel alpha y max_val n = Some st ->
  exists k : nat,
    (k < fuel)%nat
    /\ st = (shrink_alpha alpha k,
             alpha_mask y max_val (shrink_alpha alpha k))
    /\ (n <= count_true (snd st))%nat
    /\ forall j : nat, (j < k)%nat ->
         (count_true (alpha_mask y max_val (shrink_alpha alpha j)) < n)%nat.
Proof.
  revert alpha; induction fuel as [| fuel IH]; intros alpha.
  - discriminate.
  - rewrite shrink_loop_step.
    destruct (Nat.ltb_spec (count_true (alpha_mask y max_val alpha)) n)
      as [Hlt | Hge].
    + intros H. destruct (IH _ H) as (k & Hk & Hst & Hc & Hmin).
      exists (S k); repeat split; [ lia | exact Hst | exact Hc | ].
      intros [| j] Hj; [ exact Hlt | apply Hmin; lia ].
    + intros H; inversion H; subst st.
      exists 0%nat; repeat split; [ lia | exact Hge | intros j Hj; lia ].
Qed.

(** When the shrink loop stops, [alpha] has been divided by ten exactly
    [k] times, where [k] is the least number of divisions after which at
    least [num_restarts] rows pass the filter. *)
Theorem shrink_loop_first_alpha (fuel : nat) (a : R) (y : list float)
  (max_val : float) (n : nat) (st : shrink_state) :
  shrink_loop fuel (Fin a) y max_val n = Some st ->
  exists k : nat,
    (k < fuel)%nat
    /\ fst st = Fin (a * (1 / 10) ^ k)
    /\ snd st = alpha_mask y max_val (fst st)
    /\ (n <= count_true (snd st))%nat
    /\ forall j : nat, (j < k)%nat ->
         (count_true (alpha_mask y max_val (Fin (a * (1 / 10) ^ j))) < n)%nat.
Proof.
  intros H. destruct (shrink_loop_first _ _ _ _ _ _ H)
    as (k & Hk & Hst & Hc & Hmin).
  exists k. subst st. cbn [fst snd] in *. rewrite shrink_alpha_fin in *.
  repeat split; try assumption; try reflexivity.
  intros j Hj. rewrite <- shrink_alpha_fin. apply Hmin; exact Hj.
Qed.

Lemma shrink_loop_example :
  shrink_loop 3 (Fin 10) [Fin 1; Fin 5] (Fin 5) 1
  = Some (Fin (10 * (1 / 10)), [false; true]).
Proof.
  rewrite shrink_loop_step. unfold alpha_mask, count_true.
  cbn [map fmul fge fle filter length].
  rewrite !rleb_false by lra. cbn [filter length Nat.ltb Nat.leb].
  rewrite shrink_loop_step. unfold alpha_mask, count_true.
  cbn [map fmul fge fle].
  rewrite (rleb_false (10 * (1 / 10) * 5) 1) by lra.
  rewrite (rleb_true (10 * (1 / 10) * 5) 5) by lra.
  reflexivity.
Qed.

Lemma shrink_loop_first_alpha_witness :
  exists k : nat,
    (k < 3)%nat
    /\ fst (Fin (10 * (1 / 10)), [false; true]) = Fin (10 * (1 / 10) ^ k)
    /\ snd (Fin (10 * (1 / 10)), [false; true])
       = alpha_mask [Fin 1; Fin 5] (Fin 5)
           (fst (Fin (10 * (1 / 10)), [false; true]))
    /\ (1 <= count_true (snd (Fin (10 * (1 / 10)), [false; true])))%nat
    /\ forall j : nat, (j < k)%nat ->
         (count_true
            (alpha_mask [Fin 1; Fin 5] (Fin 5) (Fin (10 * (1 / 10) ^ j)))
          < 1)%nat.
Proof.
  exact (shrink_loop_first_alpha 3 10 [Fin 1; Fin 5] (Fin 5) 1
           (Fin (10 * (1 / 10)), [false; true]) shrink_loop_example).
Defined.

Lemma q_batch_nonnegative_out_of_fuel (Key Row : Type)
  (random_choice : Key -> list Row -> nat -> list float -> option (list Row))
  (fuel : nat) (eta alpha : float) (key : Key) (x : list Row)
  (y : list float) (max_val : float) (n : nat) :
  jnp_max y = Some max_val ->
  (forall k : nat,
      (count_true (alpha_mask y max_val (shrink_alpha alpha k)) < n)%nat) ->
  q_batch_nonnegative random_choice fuel eta alpha key x y n = OutOfFuel.
Proof.
  intros Hmax Hk. unfold q_batch_nonnegative. rewrite Hmax.
  assert (H : shrink_loop fuel alpha y max_val n = None)
    by (apply shrink_loop_none; intros k _; apply Hk).
  rewrite H. reflexivity.
Qed.

(** When every score is negative, [0 < alpha < 1] and at least one restart
    is asked for, the initializer of [q_batch_nonnegative] never returns,
    whatever the number of iterations allowed: the thresholds
    [alpha * 10^-k * max scores] stay above every score. *)
Theorem q_batch_nonnegative_negative_scores (Key Row : Type)
  (random_choice : Key -> list Row -> nat -> list float -> option (list Row))
  (fuel : nat) (eta : float) (a : R) (key : Key) (x : list Row)
  (ys : list R) (n : nat) :
  ys <> [] -> Forall (fun y => y < 0) ys -> 0 < a < 1 -> (1 <= n)%nat ->
  q_batch_nonnegative random_choice fuel eta (Fin a) key x (map Fin ys) n
  = OutOfFuel.
Proof.
  intros Hne Hneg Ha Hn.
  destruct ys as [| y0 t]; [ contradiction | ].
  destruct (jnp_max_fin y0 t) as [M HM].
  destruct (jnp_max_is_max _ _ HM) as [HinM Hall].
  assert (HM0 : M < 0) by (rewrite Forall_forall in Hneg; apply Hneg; exact HinM).
  apply (q_batch_nonnegative_out_of_fuel _ _ _ _ _ _ _ _ _ (Fin M)); [ exact HM | ].
  intros k. rewrite shrink_alpha_fin.
  rewrite count_true_all_false; [ lia | ].
  unfold alpha_mask. cbn [fmul].
  apply Forall_forall. intros b Hb.
  apply in_map_iff in Hb. destruct Hb as (s & <- & Hs).
  apply in_map_iff in Hs. destruct Hs as (y & <- & Hy).
  change (fge (Fin y) (Fin (a * (1 / 10) ^ k * M)))
    with (rleb (a * (1 / 10) ^ k * M) y).
  apply rleb_false.
  destruct (pow_tenth_bounds k) as [Hp0 Hp1].
  assert (Hy' := Hall y Hy).
  assert (Hap : 0 < a * (1 / 10) ^ k < 1) by nra.
  nra.
Qed.

Lemma q_batch_nonnegative_negative_scores_witness :
  q_batch_nonnegative first_choice 1000%nat (Fin 1) (Fin (1 / 10000)) tt
    [1; 2]%nat (map Fin [- 3; - 1 / 2]) 1%nat
  = OutOfFuel.
Proof.
  apply (q_batch_nonnegative_negative_scores unit nat first_choice 1000%nat
           (Fin 1) (1 / 10000) tt [1; 2]%nat [- 3; - 1 / 2] 1%nat).
  - discriminate.
  - repeat constructor; lra.
  - lra.
  - lia.
Defined.

(** When the pool has fewer rows than the number of restarts asked for,
    the initializer of [q_batch_nonnegative] never returns, whatever the
    number of iterations allowed: the filter cannot let more rows pass
    than there are. *)
Theorem q_batch_nonnegative_small_pool (Key Row : Type)
  (random_choice : Key -> list Row -> nat -> list float -> option (list Row))
  (fuel : nat) (eta alpha : float) (key : Key) (x : list Row)
  (y : list float) (n : nat) :
  y <> [] -> (length y < n)%nat ->
  q_batch_nonnegative random_choice fuel eta alpha key x y n = OutOfFuel.
Proof.
  intros Hne Hlen.
  destruct y as [| y0 t]; [ contradiction | ].
  apply (q_batch_nonnegative_out_of_fuel _ _ _ _ _ _ _ _ _
           (fold_left fmax t y0)); [ reflexivity | ].
  intros k.
  apply Nat.le_lt_trans with (2 := Hlen).
  rewrite <- (alpha_mask_length (y0 :: t) (fold_left fmax t y0)
                (shrink_alpha alpha k)).
  apply count_true_le_length.
Qed.

Lemma q_batch_nonnegative_small_pool_witness :
  q_batch_nonnegative first_choice 1000%nat (Fin 1) (Fin (1 / 10000)) tt
    [1; 2]%nat [Fin 1; Fin 2] 3%nat
  = OutOfFuel.
Proof.
  apply (q_batch_nonnegative_small_pool unit nat first_choice 1000%nat
           (Fin 1) (Fin (1 / 10000)) tt [1; 2]%nat [Fin 1; Fin 2] 3%nat).
  - discriminate.
  - simpl; lia.
Defined.

(* ================================================================== *)
(** * Further properties: the kernels *)
(* ================================================================== *)

Lemma map_fin (f : float -> float) (g : R -> R) (xs : list R) :
  (forall a, f (Fin a) = Fin (g a)) ->
  map f (map Fin xs) = map Fin (map g xs).
Proof.
  intros H. rewrite !map_map. apply map_ext. intros a. apply H.
Qed.

Lemma map2_fin (f : float -> float -> float) (g : R -> R -> R)
  (xs ys : list R) :
  (forall a b, f (Fin a) (Fin b) = Fin (g a b)) ->
  map2 f (map Fin xs) (map Fin ys) = map Fin (map2 g xs ys).
Proof.
  intros H. revert ys; induction xs as [| a t IH]; intros [| b u];
    cbn [map map2]; try reflexivity.
  rewrite H, IH. reflexivity.
Qed.

Lemma rsum_nonneg (l : list R) : Forall (fun r => 0 <= r) l -> 0 <= rsum l.
Proof.
  induction 1 as [| r t Hr _ IH]; [ simpl; lra | ].
  change (rsum (r :: t)) with (r + rsum t). lra.
Qed.

Lemma rdist2_nonneg (xs ys : list R) : 0 <= rdist2 xs ys.
Proof.
  unfold rdist2. apply rsum_nonneg.
  revert ys; induction xs as [| a t IH]; intros [| b u]; cbn [map2];
    try (constructor; fail).
  constructor; [ apply Rle_0_sqr | apply IH ].
Qed.

Lemma rdist2_sym (xs ys : list R) : rdist2 xs ys = rdist2 ys xs.
Proof.
  unfold rdist2. revert ys; induction xs as [| a t IH]; intros [| b u];
    cbn [map2]; try reflexivity.
  change (rsum (?h :: ?l)) with (h + rsum l). rewrite IH. ring.
Qed.

Lemma rdist2_refl (xs : list R) : rdist2 xs xs = 0.
Proof.
  unfold rdist2. induction xs as [| a t IH]; [ reflexivity | ].
  cbn [map2]. change (rsum (?h :: ?l)) with (h + rsum l). rewrite IH. ring.
Qed.

Lemma fadd_comm (x y : float) : fadd x y = fadd y x.
Proof.
  destruct x as [a | | |], y as [b | | |]; cbn [fadd]; try reflexivity.
  f_equal; ring.
Qed.

Lemma fmul_comm (x y : float) : fmul x y = fmul y x.
Proof.
  destruct x as [a | | |], y as [b | | |]; cbn [fmul]; try reflexivity.
  f_equal; ring.
Qed.

Lemma map2_comm {A B : Type} (f : A -> A -> B) (x y : list A) :
  (forall a b, f a b = f b a) -> map2 f x y = map2 f y x.
Proof.
  intros H. revert y; induction x as [| a t IH]; intros [| b u];
    cbn [map2]; try reflexivity.
  rewrite H, IH. reflexivity.
Qed.

Lemma jnp_inner_comm (x y : list float) : jnp_inner y x = jnp_inner x y.
Proof.
  unfold jnp_inner. rewrite (Nat.eqb_sym (length y) (length x)).
  rewrite (map2_comm fmul y x fmul_comm). reflexivity.
Qed.

(** [squared_distance] is symmetric on all vectors, whatever their
    elements, and it raises exactly when the two vectors differ in
    length. *)
Theorem squared_distance_symmetric (x y : list float) :
  squared_distance y x = squared_distance x y
  /\ (squared_distance x y = None <-> length x <> length y).
Proof.
  split.
  - unfold squared_distance. rewrite jnp_inner_comm.
    rewrite (fadd_comm (fsum (vsquare y))). reflexivity.
  - unfold squared_distance, jnp_inner.
    destruct (Nat.eqb_spec (length x) (length y)) as [E | E]; cbn [option_map].
    + split; [ discriminate | intros H; contradiction ].
    + split; [ intros _; exact E | reflexivity ].
Qed.

Lemma vdiv_fin (xs : list R) (l : R) :
  l <> 0 -> vdiv (map Fin xs) (Fin l) = map Fin (map (fun v => v / l) xs).
Proof.
  intros H. unfold vdiv. apply map_fin. intros a. apply fdiv_fin. exact H.
Qed.

Lemma kernel_entry {A : Type} (kernel_fn : list float -> list float -> A)
  (xs ys : list (list float)) (i j : nat) (x y : list float) :
  nth_error xs i = Some x -> nth_error ys j = Some y ->
  nth_error (nth i (kernel kernel_fn xs ys) []) j = Some (kernel_fn x y).
Proof.
  intros Hx Hy. unfold kernel.
  assert (E : nth_error (map (fun x => map (fun y => kernel_fn x y) ys) xs) i
              = Some (map (fun y => kernel_fn x y) ys))
    by (rewrite nth_error_map, Hx; reflexivity).
  rewrite (nth_error_nth _ _ _ E).
  rewrite nth_error_map, Hy. reflexivity.
Qed.

(** The matrix [rbf length_scale xs ys], whatever the numbers: it has one
    row per point of [xs]; its entry [(i, j)] is the kernel function at
    [xs [i]] and [ys [j]], which is also the entry [(j, i)] of the matrix
    with the arguments exchanged; and the kernel function raises exactly
    when the two points differ in length. *)
Theorem rbf_gram_symmetric (l : float) (xs ys : list (list float))
  (i j : nat) (x y : list float) :
  nth_error xs i = Some x -> nth_error ys j = Some y ->
  length (rbf l xs ys) = length xs
  /\ nth_error (nth i (rbf l xs ys) []) j = Some (rbf_fn l x y)
  /\ nth_error (nth j (rbf l ys xs) []) i = Some (rbf_fn l x y)
  /\ (rbf_fn l x y = None <-> length x <> length y).
Proof.
  intros Hx Hy.
  assert (Hsym : rbf_fn l y x = rbf_fn l x y).
  { unfold rbf_fn.
    destruct (squared_distance_symmetric (vdiv x l) (vdiv y l)) as [E _].
    rewrite E. reflexivity. }
  split; [ unfold rbf, kernel; apply length_map | ].
  split; [ unfold rbf; apply kernel_entry; assumption | ].
  split.
  - unfold rbf. rewrite (kernel_entry _ _ _ _ _ _ _ Hy Hx), Hsym.
    reflexivity.
  - unfold rbf_fn.
    destruct (squared_distance_symmetric (vdiv x l) (vdiv y l)) as [_ E].
    unfold vdiv in E. rewrite !length_map in E. unfold vdiv.
    destruct (squared_distance (map (fun v => fdiv v l) x)
                (map (fun v => fdiv v l) y)) as [d |]; cbn [option_map].
    + split; [ discriminate | ].
      intros H. apply E in H. discriminate.
    + split; [ intros _; apply E; reflexivity | reflexivity ].
Qed.

Lemma rbf_gram_symmetric_witness :
  length (rbf (Fin 2) [[Fin 0; Fin 0]; [Fin 3; Fin 4]] [[Fin 3; Fin 4]])
  = length [[Fin 0; Fin 0]; [Fin 3; Fin 4]]
  /\ nth_error
       (nth 1 (rbf (Fin 2) [[Fin 0; Fin 0]; [Fin 3; Fin 4]] [[Fin 3; Fin 4]])
          []) 0
     = Some (rbf_fn (Fin 2) [Fin 3; Fin 4] [Fin 3; Fin 4])
  /\ nth_error
       (nth 0 (rbf (Fin 2) [[Fin 3; Fin 4]] [[Fin 0; Fin 0]; [Fin 3; Fin 4]])
          []) 1
     = Some (rbf_fn (Fin 2) [Fin 3; Fin 4] [Fin 3; Fin 4])
  /\ (rbf_fn (Fin 2) [Fin 3; Fin 4] [Fin 3; Fin 4] = None
      <-> length [Fin 3; Fin 4] <> length [Fin 3; Fin 4]).
Proof.
  apply (rbf_gram_symmetric (Fin 2) [[Fin 0; Fin 0]; [Fin 3; Fin 4]]
           [[Fin 3; Fin 4]] 1 0 [Fin 3; Fin 4] [Fin 3; Fin 4]);
    reflexivity.
Defined.

(* ------------------------------------------------------------------ *)
(** ** Matern and periodic kernels *)

Lemma jnp_subtract_fin (xs ys : list R) :
  length xs = length ys ->
  jnp_subtract (map Fin xs) (map Fin ys)
  = Some (map Fin (map2 (fun a b => a + - b) xs ys)).
Proof.
  intros H. unfold jnp_subtract.
  rewrite lift2_vector_vector by (rewrite !length_map; exact H).
  rewrite (map2_fin fsub (fun a b => a + - b)) by reflexivity.
  reflexivity.
Qed.

Lemma jnp_subtract_raises (x y : list float) :
  length x <> length y -> length x <> 1%nat -> length y <> 1%nat ->
  jnp_subtract x y = None.
Proof.
  intros H H1 H2. unfold jnp_subtract, lift2.
  cbn [shape_of broadcast_shapes].
  destruct (Nat.eqb_spec (length x) (length y)); [ contradiction | ].
  destruct (Nat.eqb_spec (length x) 1); [ contradiction | ].
  destruct (Nat.eqb_spec (length y) 1); [ contradiction | ].
  reflexivity.
Qed.

Lemma rsum_sq_diff (xs ys : list R) :
  rsum (map (fun r => r * r) (map2 (fun a b => a + - b) xs ys))
  = rdist2 xs ys.
Proof.
  unfold rdist2. revert ys; induction xs as [| a t IH]; intros [| b u];
    cbn [map map2]; try reflexivity.
  change (rsum (?h :: ?l)) with (h + rsum l). rewrite IH. ring.
Qed.

Lemma linalg_norm_diff (xs ys : list R) :
  linalg_norm (map Fin (map2 (fun a b => a + - b) xs ys))
  = Fin (sqrt (rdist2 xs ys)).
Proof.
  unfold linalg_norm, vsquare.
  rewrite (map_fin (fun v => fmul v v) (fun r => r * r)) by reflexivity.
  rewrite fsum_fin, rsum_sq_diff.
  apply fsqrt_fin. apply rdist2_nonneg.
Qed.

(** The three Matern kernels on finite vectors of the same length, for a
    length scale other than [0], with [r] the Euclidean distance of the
    scaled vectors: their values, their symmetry, and the value [1] of
    each where the two vectors are the same. *)
Theorem matern_kernels (l : R) (xs ys : list R) :
  l <> 0 -> length xs = length ys ->
  let r := sqrt (rdist2 (map (fun v => v / l) xs) (map (fun v => v / l) ys)) in
  let x := map Fin xs in
  let y := map Fin ys in
  (matern_half_fn (Fin l) x y = Some (Fin (exp (- r)))
   /\ matern_three_halves_fn (Fin l) x y
      = Some (Fin ((1 + r * sqrt 3) * exp (- (r * sqrt 3))))
   /\ matern_five_halves_fn (Fin l) x y
      = Some (Fin ((1 + r * sqrt 5 + r * sqrt 5 * (r * sqrt 5) / 3)
                   * exp (- (r * sqrt 5)))))
  /\ (matern_half_fn (Fin l) y x = matern_half_fn (Fin l) x y
      /\ matern_three_halves_fn (Fin l) y x
         = matern_three_halves_fn (Fin l) x y
      /\ matern_five_halves_fn (Fin l) y x
         = matern_five_halves_fn (Fin l) x y)
  /\ (matern_half_fn (Fin l) x x = Some (Fin 1)
      /\ matern_three_halves_fn (Fin l) x x = Some (Fin 1)
      /\ matern_five_halves_fn (Fin l) x x = Some (Fin 1)).
Proof.
  intros Hl H r x y.
  assert (Hval : forall us vs : list R, length us = length vs ->
            let r := sqrt (rdist2 (map (fun v => v / l) us)
                             (map (fun v => v / l) vs)) in
            matern_half_fn (Fin l) (map Fin us) (map Fin vs)
            = Some (Fin (exp (- r)))
            /\ matern_three_halves_fn (Fin l) (map Fin us) (map Fin vs)
               = Some (Fin ((1 + r * sqrt 3) * exp (- (r * sqrt 3))))
            /\ matern_five_halves_fn (Fin l) (map Fin us) (map Fin vs)
               = Some (Fin ((1 + r * sqrt 5 + r * sqrt 5 * (r * sqrt 5) / 3)
                            * exp (- (r * sqrt 5))))).
  { intros us vs Huv r0.
    unfold matern_half_fn, matern_three_halves_fn, matern_five_halves_fn.
    rewrite !vdiv_fin by exact Hl.
    rewrite jnp_subtract_fin by (rewrite !length_map; exact Huv).
    cbn [option_map]. rewrite linalg_norm_diff. fold r0.
    rewrite !fsqrt_fin by lra. cbn [fmul fneg fexp fadd].
    rewrite fdiv_fin by lra. cbn [fadd fmul].
    repeat split; reflexivity. }
  destruct (Hval xs ys H) as (H1 & H2 & H3).
  destruct (Hval ys xs (eq_sym H)) as (S1 & S2 & S3).
  destruct (Hval xs xs eq_refl) as (D1 & D2 & D3).
  cbv zeta in *. fold x y in H1, H2, H3, S1, S2, S3, D1, D2, D3.
  rewrite (rdist2_sym (map (fun v => v / l) ys)) in S1, S2, S3.
  rewrite rdist2_refl, sqrt_0 in D1, D2, D3.
  fold r in H1, H2, H3, S1, S2, S3.
  split; [ auto | split ].
  - rewrite H1, H2, H3, S1, S2, S3. auto.
  - rewrite D1, D2, D3.
    repeat split; do 2 f_equal; rewrite ?Rmult_0_l, ?Ropp_0, ?exp_0;
      unfold Rdiv; rewrite ?Rmult_0_l; ring.
Qed.

Lemma matern_kernels_witness :
  let r := sqrt (rdist2 (map (fun v => v / 2) [0; 0])
                   (map (fun v => v / 2) [3; 4])) in
  let x := map Fin [0; 0] in
  let y := map Fin [3; 4] in
  (matern_half_fn (Fin 2) x y = Some (Fin (exp (- r)))
   /\ matern_three_halves_fn (Fin 2) x y
      = Some (Fin ((1 + r * sqrt 3) * exp (- (r * sqrt 3))))
   /\ matern_five_halves_fn (Fin 2) x y
      = Some (Fin ((1 + r * sqrt 5 + r * sqrt 5 * (r * sqrt 5) / 3)
                   * exp (- (r * sqrt 5)))))
  /\ (matern_half_fn (Fin 2) y x = matern_half_fn (Fin 2) x y
      /\ matern_three_halves_fn (Fin 2) y x
         = matern_three_halves_fn (Fin 2) x y
      /\ matern_five_halves_fn (Fin 2) y x
         = matern_five_halves_fn (Fin 2) x y)
  /\ (matern_half_fn (Fin 2) x x = Some (Fin 1)
      /\ matern_three_halves_fn (Fin 2) x x = Some (Fin 1)
      /\ matern_five_halves_fn (Fin 2) x x = Some (Fin 1)).
Proof.
  apply (matern_kernels 2 [0; 0] [3; 4]); [ lra | reflexivity ].
Defined.

Lemma sine_squared_sum_eq (l p : R) (xs ys : list R) :
  rsum
    (map (fun r => r * r)
       (map (fun d => sin (PI * d / p) / l)
          (map2 (fun a b => a + - b) xs ys)))
  = sine_squared_sum l p xs ys.
Proof.
  unfold sine_squared_sum. revert ys; induction xs as [| a t IH];
    intros [| b u]; cbn [map map2]; try reflexivity.
  change (rsum (?h :: ?r)) with (h + rsum r). rewrite IH. reflexivity.
Qed.

Lemma periodic_fn_fin (l var p : R) (xs ys : list R) :
  l <> 0 -> p <> 0 -> length xs = length ys ->
  periodic_fn (Fin l) (Fin var) (Fin p) (map Fin xs) (map Fin ys)
  = Some (Fin (var * exp (- (1 / 2) * sine_squared_sum l p xs ys))).
Proof.
  intros Hl Hp H. unfold periodic_fn.
  rewrite jnp_subtract_fin by exact H. cbn [option_map].
  rewrite (map_fin _ (fun d => sin (PI * d / p) / l)).
  2:{ intros a. cbn [fmul]. rewrite fdiv_fin by exact Hp. cbn [fsin].
      apply fdiv_fin. exact Hl. }
  unfold vsquare.
  rewrite (map_fin (fun v => fmul v v) (fun r => r * r)) by reflexivity.
  rewrite fsum_fin, sine_squared_sum_eq. reflexivity.
Qed.

Lemma sine_squared_sum_sym (l p : R) (xs ys : list R) :
  p <> 0 -> sine_squared_sum l p ys xs = sine_squared_sum l p xs ys.
Proof.
  intros Hp. unfold sine_squared_sum.
  revert ys; induction xs as [| a t IH]; intros [| b u]; cbn [map2];
    try reflexivity.
  change (rsum (?h :: ?r)) with (h + rsum r). rewrite IH. f_equal.
  replace (PI * (b - a) / p) with (- (PI * (a - b) / p))
    by (field; exact Hp).
  rewrite sin_neg. unfold Rdiv. ring.
Qed.

Lemma sine_squared_sum_refl (l p : R) (xs : list R) :
  sine_squared_sum l p xs xs = 0.
Proof.
  unfold sine_squared_sum. induction xs as [| a t IH]; [ reflexivity | ].
  cbn [map2]. change (rsum (?h :: ?r)) with (h + rsum r). rewrite IH.
  replace (PI * (a - a) / p) with 0 by (unfold Rdiv; ring).
  rewrite sin_0. unfold Rdiv. ring.
Qed.

(** The periodic kernel on finite vectors of the same length, for a
    length scale and a period other than [0]: its value, its symmetry, and
    the variance as its value where the two vectors are the same. *)
Theorem periodic_kernel (l var p : R) (xs ys : list R) :
  l <> 0 -> p <> 0 -> length xs = length ys ->
  let k := periodic_fn (Fin l) (Fin var) (Fin p) in
  k (map Fin xs) (map Fin ys)
  = Some (Fin (var * exp (- (1 / 2) * sine_squared_sum l p xs ys)))
  /\ k (map Fin ys) (map Fin xs) = k (map Fin xs) (map Fin ys)
  /\ k (map Fin xs) (map Fin xs) = Some (Fin var).
Proof.
  intros Hl Hp H k. unfold k.
  rewrite !periodic_fn_fin
    by (assumption || rewrite ?length_map; congruence).
  split; [ reflexivity | split ].
  - rewrite sine_squared_sum_sym by exact Hp. reflexivity.
  - rewrite sine_squared_sum_refl, Rmult_0_r, exp_0, Rmult_1_r. reflexivity.
Qed.

Lemma periodic_kernel_witness :
  let k := periodic_fn (Fin 2) (Fin 3) (Fin 5) in
  k (map Fin [1; 2]) (map Fin [4; 6])
  = Some (Fin (3 * exp (- (1 / 2) * sine_squared_sum 2 5 [1; 2] [4; 6])))
  /\ k (map Fin [4; 6]) (map Fin [1; 2]) = k (map Fin [1; 2]) (map Fin [4; 6])
  /\ k (map Fin [1; 2]) (map Fin [1; 2]) = Some (Fin 3).
Proof.
  apply (periodic_kernel 2 3 5 [1; 2] [4; 6]); [ lra | lra | reflexivity ].
Defined.

(* ------------------------------------------------------------------ *)
(** ** A run of the upper confidence bound at a zero scale *)

Lemma upper_confidence_bound_zero_scale_witness :
  nth_error
    (upper_confidence_bound (Fin 2) (fun _ : unit => ([Fin 3], [[Fin 0]])) tt)
    0 = Some (Fin 3).
Proof.
  apply (upper_confidence_bound_zero_scale unit
           (fun _ : unit => ([Fin 3], [[Fin 0]])) tt 2 3 [Fin 3] [[Fin 0]] 0).
  - reflexivity.
  - reflexivity.
  - unfold scale_of, compose, diag; simpl.
    rewrite rltb_false by lra. rewrite sqrt_0. reflexivity.
  - lra.
Defined.
